(** * graphagent: a shallow embedding of the node/fork/join/batch engine

    The engine of [src/core.ts] and the helpers of [src/utils.ts] are
    embedded as Rocq functions over an explicit JavaScript-like store.

    - Values are primitives or references into a heap of objects, so that
      aliasing (two references to one object) and in-place mutation are
      visible, as they are in the source.
    - A computation is a function from the world to a new world and either
      a value or a thrown exception; the world survives a throw, as a
      JavaScript heap does.
    - User-supplied functions (prepare, execute, finalize, predicates,
      selectors, collectors) are arbitrary computations of that kind.
    - Numbers are mathematical integers: the engine only counts attempts
      and multiplies delays, which is exact on IEEE doubles below 2^53.
    - Calls to the logging sink ([log], [warnMessage], [errorMessage])
      only write to the console and are left out.
    - An [await] is sequencing: the asynchronous combinators are embedded
      under the schedule that runs each task to completion in start order
      ([Promise.all] keeps the results in that order). *)

From stdpp Require Import gmap strings list fin_maps pretty.
From Stdlib Require Import ZArith Lia.

Local Open Scope Z_scope.

(** ** Constants ([src/constants.ts]) *)

Definition DEFAULT_TRANSITION_OUTCOME : string := "default".
Definition DEFAULT_MAX_ATTEMPTS : Z := 3.
Definition DEFAULT_RETRY_DELAY_MS : Z := 1000.
Definition DEFAULT_BATCH_CONCURRENCY : Z := 5.
Definition DEFAULT_JOIN_OUTCOME : string := "joined".
Definition DEFAULT_FORK_OUTCOME : string := "forked".
Definition ERROR_EXHAUSTED_RETRIES : string := "Exhausted all retry attempts".

(** ** Values, objects and the world *)

Definition loc := nat.

Inductive val : Type :=
  | VUndef
  | VNull
  | VBool (b : bool)
  | VNum (n : Z)
  | VStr (s : string)
  | VRef (l : loc).

#[global] Instance val_eq_dec : EqDecision val.
Proof. solve_decision. Defined.

(** An object is a plain record, or an array with its elements and any
    further named properties. *)
Record obj : Type := Obj {
  o_elems : option (list val);
  o_props : gmap string val
}.

Definition plain (fs : gmap string val) : obj := Obj None fs.
Definition array (es : list val) : obj := Obj (Some es) ∅.

(** What a run leaves behind besides the heap: the delays slept and the
    arguments of traced invocations. *)
Inductive event : Type :=
  | EvSleep (ms : Z)
  | EvInvoke (arg : val).

Record world : Type := World {
  heap : list obj;
  rand_seq : nat -> string;   (* the tokens Math.random will yield *)
  rand_ix : nat;              (* how many have been drawn *)
  trace : list event          (* newest first *)
}.

Definition with_heap (h : list obj) (w : world) : world :=
  World h (rand_seq w) (rand_ix w) (trace w).

Definition with_event (e : event) (w : world) : world :=
  World (heap w) (rand_seq w) (rand_ix w) (e :: trace w).

(** A thrown value: an instance of Error (known by its message) or any
    other value. *)
Inductive exn : Type :=
  | JsError (msg : string)
  | Thrown (v : val).

#[global] Instance exn_eq_dec : EqDecision exn.
Proof. solve_decision. Defined.

(** How a computation ends: with a value, with a thrown exception, or
    not at all (a loop of the engine that never exits). *)
Inductive res (A : Type) : Type :=
  | Ok (a : A)
  | Throw (e : exn)
  | Hang.
Arguments Ok {A} a.
Arguments Throw {A} e.
Arguments Hang {A}.

Definition M (A : Type) : Type := world -> world * res A.

#[global] Instance M_ret : MRet M := fun A a w => (w, Ok a).
#[global] Instance M_bind : MBind M := fun A B f m w =>
  match m w with
  | (w', Ok a) => f a w'
  | (w', Throw e) => (w', Throw e)
  | (w', Hang) => (w', Hang)
  end.

Definition throw {A : Type} (e : exn) : M A := fun w => (w, Throw e).

(** [try { body } catch (error) { handler error }] *)
Definition try_catch {A : Type} (body : M A) (handler : exn -> M A) : M A :=
  fun w =>
    match body w with
    | (w', Ok a) => (w', Ok a)
    | (w', Throw e) => handler e w'
    | (w', Hang) => (w', Hang)
    end.

Definition get_heap : M (list obj) := fun w => (w, Ok (heap w)).

(** A fresh object: [{...}] or [[...]] *)
Definition alloc (o : obj) : M val := fun w =>
  (with_heap (heap w ++ [o]) w, Ok (VRef (length (heap w)))).

Definition hang {A : Type} : M A := fun w => (w, Hang).

Fixpoint foldM {A B : Type} (f : B -> A -> M B) (acc : B) (l : list A) : M B :=
  match l with
  | [] => mret acc
  | x :: l' => acc' ← f acc x; foldM f acc' l'
  end.

(** ** JavaScript primitives the engine relies on *)

(** [!!v] *)
Definition truthy (v : val) : bool :=
  match v with
  | VUndef | VNull => false
  | VBool b => b
  | VNum n => negb (n =? 0)
  | VStr s => negb (String.eqb s "")
  | VRef _ => true
  end.

(** [typeof v === 'object'] (true of [null]) *)
Definition typeof_object (v : val) : bool :=
  match v with
  | VNull | VRef _ => true
  | _ => false
  end.

(** [a === b] *)
Definition strict_eq (a b : val) : bool := bool_decide (a = b).

(** [a || b] on values *)
Definition js_or (a b : val) : val := if truthy a then a else b.

Definition index_fields (es : list val) : gmap string val :=
  list_to_map (imap (fun i v => (pretty i, v)) es).

Definition chars (s : string) : list val :=
  (fun c => VStr (String c EmptyString)) <$> String.list_ascii_of_string s.

(** The own enumerable properties of an object. *)
Definition own_fields (o : obj) : gmap string val :=
  match o_elems o with
  | None => o_props o
  | Some es => o_props o ∪ index_fields es
  end.

(** [{...v}]: the properties a spread copies. *)
Definition spread (h : list obj) (v : val) : gmap string val :=
  match v with
  | VRef l => from_option own_fields ∅ (h !! l)
  | VStr s => index_fields (chars s)
  | _ => ∅
  end.

(** [Object.entries(v)], in an order the model does not fix. *)
Definition entries (h : list obj) (v : val) : list (string * val) :=
  map_to_list (spread h v).

(** [v[key]] for a [v] that is neither [null] nor [undefined]. *)
Definition get_prop (h : list obj) (v : val) (key : string) : val :=
  match v with
  | VRef l =>
      match h !! l with
      | Some o =>
          match o_elems o with
          | Some es =>
              if String.eqb key "length" then VNum (Z.of_nat (length es))
              else default VUndef (own_fields o !! key)
          | None => default VUndef (o_props o !! key)
          end
      | None => VUndef
      end
  | VStr s =>
      if String.eqb key "length" then VNum (Z.of_nat (String.length s))
      else default VUndef (index_fields (chars s) !! key)
  | _ => VUndef
  end.

(** [key in v] for an object [v]. *)
Definition has_prop (h : list obj) (v : val) (key : string) : bool :=
  match v with
  | VRef l =>
      match h !! l with
      | Some o =>
          match o_elems o with
          | Some es => String.eqb key "length" || bool_decide (is_Some (own_fields o !! key))
          | None => bool_decide (is_Some (o_props o !! key))
          end
      | None => false
      end
  | _ => false
  end.

(** [v[key] = x] on an object reference; the heap is left alone when [v]
    is a primitive. *)
Definition set_prop (v : val) (key : string) (x : val) : M unit := fun w =>
  match v with
  | VRef l =>
      match heap w !! l with
      | Some o => (with_heap (<[l := Obj (o_elems o) (<[key := x]> (o_props o))]> (heap w)) w, Ok tt)
      | None => (w, Ok tt)
      end
  | _ => (w, Ok tt)
  end.

(** [String(v)]. An array joins its elements with commas, [null] and
    [undefined] elements giving the empty string; the recursion into
    nested arrays is bounded by [fuel]. *)
Fixpoint js_String_fuel (fuel : nat) (h : list obj) (v : val) : string :=
  match v with
  | VUndef => "undefined"
  | VNull => "null"
  | VBool true => "true"
  | VBool false => "false"
  | VNum n => pretty n
  | VStr s => s
  | VRef l =>
      match h !! l with
      | Some (Obj (Some es) _) =>
          match fuel with
          | O => ""
          | S fuel' =>
              String.concat ","
                ((fun e => match e with
                           | VUndef | VNull => ""
                           | _ => js_String_fuel fuel' h e
                           end) <$> es)
          end
      | _ => "[object Object]"
      end
  end.

Definition js_String (h : list obj) (v : val) : string :=
  js_String_fuel (S (length h)) h v.

(** [error instanceof Error ? error : new Error(String(error))] *)
Definition typed_error (h : list obj) (e : exn) : exn :=
  match e with
  | JsError m => JsError m
  | Thrown v => JsError (js_String h v)
  end.

(** [error instanceof Error ? error.message : String(error)] *)
Definition error_text (h : list obj) (e : exn) : string :=
  match e with
  | JsError m => m
  | Thrown v => js_String h v
  end.

(** [Math.random().toString(36).substring(2, 11)] *)
Definition random_token : M string := fun w =>
  (World (heap w) (rand_seq w) (S (rand_ix w)) (trace w), Ok (rand_seq w (rand_ix w))).

(** [sleep(ms)]: the delay is recorded. *)
Definition sleep (ms : Z) : M unit := fun w => (with_event (EvSleep ms) w, Ok tt).

Definition slept (w : world) : list Z :=
  omap (fun e => match e with EvSleep ms => Some ms | _ => None end) (trace w).

(** ** [src/utils.ts] *)

Inductive BackoffStrategy : Type := linear | exponential | fixed.

Definition calculateBackoff (attempt baseDelayMs : Z) (strategy : BackoffStrategy) : Z :=
  match strategy with
  | linear => baseDelayMs * attempt
  | exponential => baseDelayMs * 2 ^ (attempt - 1)
  | fixed => baseDelayMs
  end.

(** *** [deepCopy]: [JSON.parse(JSON.stringify(obj))] *)

#[warnings="-register-all"]
Inductive json : Type :=
  | JNull
  | JBool (b : bool)
  | JNum (n : Z)
  | JStr (s : string)
  | JArr (items : list json)
  | JObj (members : list (string * json)).

(** [JSON.stringify]. The outer [None] is the TypeError raised on a
    cyclic structure: a chain of references longer than the heap has
    objects must visit one twice. The inner [None] is [undefined], which
    is dropped from a record and written as [null] inside an array. An
    array's named properties are not serialized. *)
Fixpoint stringify (fuel : nat) (h : list obj) (v : val) : option (option json) :=
  match v with
  | VUndef => Some None
  | VNull => Some (Some JNull)
  | VBool b => Some (Some (JBool b))
  | VNum n => Some (Some (JNum n))
  | VStr s => Some (Some (JStr s))
  | VRef l =>
      match fuel with
      | O => None
      | S fuel' =>
          match h !! l with
          | None => Some None
          | Some (Obj (Some es) _) =>
              match mapM (fun e => default JNull <$> stringify fuel' h e) es with
              | Some js => Some (Some (JArr js))
              | None => None
              end
          | Some (Obj None fs) =>
              match mapM (fun kx : string * val => fmap (M:=option) (pair kx.1) <$> stringify fuel' h kx.2)
                         (map_to_list fs) with
              | Some kjs => Some (Some (JObj (omap id kjs)))
              | None => None
              end
          end
      end
  end.

(** [JSON.parse]: every array and record of the text is a fresh object. *)
Fixpoint parse (j : json) : M val :=
  match j with
  | JNull => mret VNull
  | JBool b => mret (VBool b)
  | JNum n => mret (VNum n)
  | JStr s => mret (VStr s)
  | JArr items => es ← mapM parse items; alloc (array es)
  | JObj members =>
      fs ← mapM (fun kx : string * json => v ← parse kx.2; mret (kx.1, v)) members;
      alloc (plain (list_to_map fs))
  end.

Definition deepCopy (v : val) : M val := fun w =>
  match stringify (S (length (heap w))) (heap w) v with
  | None => (w, Throw (JsError "TypeError: cyclic object value"))
  | Some None => (w, Throw (JsError "SyntaxError: JSON.parse"))
  | Some (Some j) => parse j w
  end.

(** *** [chunkArray] and [executeParallel] *)

(** [array.slice(start, stop)] *)
Definition js_slice {A : Type} (array : list A) (start stop : Z) : list A :=
  let len := Z.of_nat (length array) in
  let from := if start <? 0 then Z.max (len + start) 0 else Z.min start len in
  let to := if stop <? 0 then Z.max (len + stop) 0 else Z.min stop len in
  take (Z.to_nat (to - from)) (drop (Z.to_nat from) array).

(** The body of [for (let i = 0; i < array.length; i += chunkSize)];
    [None] when the loop is still running after [fuel] rounds. *)
Fixpoint chunk_loop {A : Type} (fuel : nat) (array : list A) (i chunkSize : Z)
  : option (list (list A)) :=
  if i <? Z.of_nat (length array) then
    match fuel with
    | O => None
    | S fuel' =>
        cons (js_slice array i (Z.min (i + chunkSize) (Z.of_nat (length array))))
          <$> chunk_loop fuel' array (i + chunkSize) chunkSize
    end
  else Some [].

(** A loop that advances by at least one needs no more rounds than the
    array has elements; one that does not advance never exits. *)
Definition chunkArray {A : Type} (array : list A) (chunkSize : Z) : option (list (list A)) :=
  chunk_loop (length array) array 0 chunkSize.

(** A JavaScript number used as a concurrency bound. *)
Inductive bound : Type :=
  | Infinity
  | Finite (n : Z).

Definition executeParallel {T R : Type} (items : list T) (processFn : T -> M R)
    (concurrency : bound) : M (list R) :=
  match concurrency with
  | Infinity => mapM processFn items
  | Finite n =>
      match chunkArray items n with
      | None => hang
      | Some chunks =>
          foldM (fun results chunk =>
                   chunkResults ← mapM processFn chunk;
                   mret (results ++ chunkResults))
                [] chunks
      end
  end.

(** *** [pipe], [compose] and the context helpers *)

Definition pipe {T : Type} (fns : list (T -> M T)) (arg : T) : M T :=
  foldM (fun result fn => fn result) arg fns.

Definition compose {T : Type} (fns : list (T -> M T)) (arg : T) : M T :=
  foldM (fun result fn => fn result) arg (reverse fns).

(** [({ ...context, [key]: value })] *)
Definition setInContext (context : val) (key : string) (value : val) : M val :=
  h ← get_heap; alloc (plain (<[key := value]> (spread h context))).

(** [key in context ? context[key] : defaultValue]; [in] raises a
    TypeError when its right operand is not an object. *)
Definition getFromContext (context : val) (key : string) (defaultValue : val) : M val :=
  match context with
  | VRef _ =>
      h ← get_heap;
      mret (if has_prop h context key then get_prop h context key else defaultValue)
  | _ => throw (JsError "TypeError: right operand of 'in' is not an object")
  end.

(** ** [src/core.ts]: core utilities *)

(** The filter of [mergeContext]: every key but ['snapshot'], and but
    ['metadata'] when the snapshot's metadata carries a ['version']. *)
Definition merge_keeps (h : list obj) (snapshot : val) (key : string) : bool :=
  negb (String.eqb key "snapshot")
  && negb (String.eqb key "metadata"
           && truthy snapshot && typeof_object snapshot
           && truthy (get_prop h snapshot "metadata")
           && typeof_object (get_prop h snapshot "metadata")
           && has_prop h (get_prop h snapshot "metadata") "version").

(** [mergeContext(context, prepareResult)]. The parameter [context] is a
    local variable: each [context = setInContext(context, key, value)]
    binds it to a fresh record and leaves the caller's object as it was.
    The function returns nothing. *)
Definition mergeContext (context prepareResult : val) : M unit :=
  if negb (truthy prepareResult) || negb (typeof_object prepareResult)
     || strict_eq prepareResult VNull || strict_eq prepareResult context
     || negb (truthy context)
  then mret tt
  else
    h ← get_heap;
    let snapshot := get_prop h prepareResult "snapshot" in
    foldM (fun (context : val) (kv : string * val) =>
             h' ← get_heap;
             if negb (strict_eq (get_prop h' context kv.1) kv.2)
             then setInContext context kv.1 kv.2
             else mret context)
          context
          (List.filter (fun kv : string * val => merge_keeps h snapshot kv.1)
                       (entries h prepareResult));;
    mret tt.

(** [getResultKey(item, result?)]; a call without [result] passes
    [undefined]. *)
Definition getResultKey (item result : val) : M string :=
  fromResult ←
    (if truthy result && typeof_object result then
       k1 ← getFromContext result "key" VUndef;
       if truthy k1 then mret k1 else
       k2 ← getFromContext result "id" VUndef;
       if truthy k2 then mret k2 else
       h ← get_heap;
       if truthy result && has_prop h result "item"
          && truthy (get_prop h result "item")
          && typeof_object (get_prop h result "item")
       then getFromContext (get_prop h result "item") "id" VUndef
       else mret VUndef
     else mret VUndef);
  if truthy fromResult then h ← get_heap; mret (js_String h fromResult) else
  fromItem ←
    (if truthy item && typeof_object item then
       i1 ← getFromContext item "id" VUndef;
       if truthy i1 then mret i1 else getFromContext item "key" VUndef
     else mret VUndef);
  if truthy fromItem then h ← get_heap; mret (js_String h fromItem) else
  random_token.

Definition updateContextProperty (context : val) (property : string) (value : val) : M unit :=
  if truthy context && typeof_object context then set_prop context property value
  else mret tt.

(** Anything with an [execute] method: a node, a pipeline, a gate. *)
Definition executable : Type := val -> M val.

(** [safeExecute]: the nodes of this model all have an [execute], so the
    guard passes; the [catch] logs and throws the error again. *)
Definition safeExecute (node : executable) (context : val) : M val :=
  try_catch (node context) (fun error => throw error).

(** The rounds of [for (let attempt = 0; attempt < maxAttempts; attempt++)]:
    [rounds] is the number of rounds left, [maxAttempts - attempt]. *)
Fixpoint retry_rounds (rounds : nat) (attempt : Z) (execute : M val) (maxAttempts : Z)
    (shouldRetry : exn -> M val) (onRetry : Z -> M unit) : M val :=
  match rounds with
  | O => throw (JsError ERROR_EXHAUSTED_RETRIES)
  | S rounds' =>
      try_catch execute (fun error =>
        h ← get_heap;
        let typedError := typed_error h error in
        verdict ← shouldRetry typedError;
        if negb (truthy verdict) || (maxAttempts - 1 <=? attempt) then throw typedError
        else onRetry attempt;;
             retry_rounds rounds' (attempt + 1) execute maxAttempts shouldRetry onRetry)
  end.

Definition executeWithRetries (execute : M val) (maxAttempts : Z)
    (shouldRetry : exn -> M val) (onRetry : Z -> M unit) : M val :=
  retry_rounds (Z.to_nat maxAttempts) 0 execute maxAttempts shouldRetry onRetry.

(** ** Nodes *)

Record RetryPolicy : Type := {
  maxAttempts : Z;
  delayMs : Z;
  backoff : BackoffStrategy;
  retryPredicate : option (exn -> M val)
}.

Definition DEFAULT_BACKOFF_STRATEGY : BackoffStrategy := exponential.

(** [retry.policy(maxAttempts?, delayMs?, backoff?, retryPredicate?)]: an
    argument left out takes its default. *)
Definition createRetryPolicyConfig (maxAttempts delayMs : option Z)
    (backoff : option BackoffStrategy) (retryPredicate : option (exn -> M val))
  : RetryPolicy :=
  {| maxAttempts := default DEFAULT_MAX_ATTEMPTS maxAttempts;
     delayMs := default DEFAULT_RETRY_DELAY_MS delayMs;
     backoff := default DEFAULT_BACKOFF_STRATEGY backoff;
     retryPredicate := retryPredicate |}.

(** The closure of [createCompleteNode]. The generated [id] only appears
    in log lines and is left out. *)
Record Node : Type := {
  prepareFn : val -> M val;
  executeFn : val -> M val;
  finalizeFn : val -> val -> val -> M val;
  retryPolicy : option RetryPolicy
}.

Definition createNode : Node := {|
  prepareFn := fun ctx => mret ctx;
  executeFn := fun result => mret result;
  finalizeFn := fun _ _ _ => mret (VStr DEFAULT_TRANSITION_OUTCOME);
  retryPolicy := None
|}.

Definition withPrepare (fn : val -> M val) (n : Node) : Node :=
  {| prepareFn := fn; executeFn := executeFn n; finalizeFn := finalizeFn n;
     retryPolicy := retryPolicy n |}.
Definition withExecuteLogic (fn : val -> M val) (n : Node) : Node :=
  {| prepareFn := prepareFn n; executeFn := fn; finalizeFn := finalizeFn n;
     retryPolicy := retryPolicy n |}.
Definition withFinalize (fn : val -> val -> val -> M val) (n : Node) : Node :=
  {| prepareFn := prepareFn n; executeFn := executeFn n; finalizeFn := fn;
     retryPolicy := retryPolicy n |}.
Definition withRetry (policy : RetryPolicy) (n : Node) : Node :=
  {| prepareFn := prepareFn n; executeFn := executeFn n; finalizeFn := finalizeFn n;
     retryPolicy := Some policy |}.

(** The retry loop written inside the synchronous [execute]: no wait
    between attempts. *)
Fixpoint sync_retry_rounds (rounds : nat) (attempt : Z) (executeFn : val -> M val)
    (prepareResult : val) (policy : RetryPolicy) : M val :=
  match rounds with
  | O => throw (JsError ERROR_EXHAUSTED_RETRIES)
  | S rounds' =>
      try_catch (executeFn prepareResult) (fun error =>
        h ← get_heap;
        let typedError := typed_error h error in
        shouldRetry ← match retryPredicate policy with
                      | Some p => p typedError
                      | None => mret (VBool true)
                      end;
        if negb (truthy shouldRetry) || (maxAttempts policy - 1 <=? attempt)
        then throw typedError
        else sync_retry_rounds rounds' (attempt + 1) executeFn prepareResult policy)
  end.

(** [createNode().execute] *)
Definition node_execute (n : Node) : executable := fun context =>
  try_catch
    (copy ← deepCopy context;
     prepareResult ← prepareFn n copy;
     executeResult ←
       match retryPolicy n with
       | None => executeFn n prepareResult
       | Some policy =>
           sync_retry_rounds (Z.to_nat (maxAttempts policy)) 0 (executeFn n) prepareResult policy
       end;
     outcome ← finalizeFn n context prepareResult executeResult;
     h ← get_heap;
     (if typeof_object prepareResult && negb (strict_eq prepareResult VNull)
         && has_prop h prepareResult "iterations"
      then updateContextProperty context "iterations" (get_prop h prepareResult "iterations")
      else mret tt);;
     mergeContext context prepareResult;;
     mret context)
    (fun error => throw error).

(** [createAsyncNode().execute]: [prepare] is called on the incoming
    context itself. *)
Definition async_node_execute (n : Node) : executable := fun context =>
  try_catch
    (prepareResult ← prepareFn n context;
     executeResult ←
       match retryPolicy n with
       | None => executeFn n prepareResult
       | Some policy =>
           executeWithRetries (executeFn n prepareResult) (maxAttempts policy)
             (default (fun _ => mret (VBool true)) (retryPredicate policy))
             (fun attempt =>
                sleep (calculateBackoff (attempt + 1) (delayMs policy) (backoff policy)))
       end;
     outcome ← finalizeFn n context prepareResult executeResult;
     mergeContext context prepareResult;;
     mret context)
    (fun error => throw error).

(** ** Fork *)

(** [createFork(...nodes).execute]: one deep copy of the input, then one
    spread of that copy per branch. *)
Definition fork_execute (nodes : list executable) (context : val) : M (list val) :=
  copiedContext ← deepCopy context;
  match nodes with
  | [] =>
      h ← get_heap;
      tagged ← alloc (plain (<["outcome" := VStr DEFAULT_FORK_OUTCOME]> (spread h copiedContext)));
      mret [tagged]
  | _ =>
      mapM (fun node : executable =>
              h ← get_heap;
              branchContext ← alloc (plain (spread h copiedContext));
              node branchContext)
           nodes
  end.

(** [createAsyncFork(...nodes).execute]; [executeParallel] is called
    without a bound, which is [Infinity]. *)
Definition async_fork_execute (nodes : list executable) (context : val) : M (list val) :=
  copiedContext ← deepCopy context;
  match nodes with
  | [] =>
      h ← get_heap;
      tagged ← alloc (plain (<["outcome" := VStr DEFAULT_FORK_OUTCOME]> (spread h copiedContext)));
      mret [tagged]
  | _ =>
      executeParallel nodes
        (fun node : executable =>
           h ← get_heap;
           branchContext ← alloc (plain (spread h copiedContext));
           safeExecute node branchContext)
        Infinity
  end.

(** ** Join and When

    [createJoin] and [createWhen] keep their function in a [let] variable
    of the closure. The variables live in a store of their own, which the
    builder calls thread explicitly; user functions cannot reach it. *)

Record closures : Type := {
  join_vars : list (list val -> M val);
  cond_vars : list (val -> M val)
}.

Definition no_closures : closures := {| join_vars := []; cond_vars := [] |}.

(** [({ ...acc, ...ctx })] *)
Definition merge_two (acc ctx : val) : M val :=
  h ← get_heap; alloc (plain (spread h ctx ∪ spread h acc)).

(** The initial [joinFn] of [createJoin]: the per-context merge steps are
    chained with [compose]. *)
Definition default_joinFn (contexts : list val) : M val :=
  empty ← alloc (plain ∅);
  merged ← compose ((fun ctx acc => merge_two acc ctx) <$> contexts) empty;
  h ← get_heap;
  result ← alloc (plain (spread h merged));
  set_prop result "outcome" (VStr DEFAULT_JOIN_OUTCOME);;
  mret result.

(** The initial [joinFn] of [createAsyncJoin]: a left-to-right [reduce]. *)
Definition default_async_joinFn (contexts : list val) : M val :=
  empty ← alloc (plain ∅);
  merged ← foldM merge_two empty contexts;
  h ← get_heap;
  result ← alloc (plain (spread h merged));
  set_prop result "outcome" (VStr DEFAULT_JOIN_OUTCOME);;
  mret result.

(** A join object: the variable its [execute] reads, and whether it is
    the object [createJoin] returned or one returned by [withJoinFn]. *)
Record Join : Type := {
  join_var : nat;
  join_is_root : bool
}.

Definition new_join (initial : list val -> M val) (cs : closures) : closures * Join :=
  ({| join_vars := join_vars cs ++ [initial]; cond_vars := cond_vars cs |},
   {| join_var := length (join_vars cs); join_is_root := true |}).

Definition createJoin : closures -> closures * Join := new_join default_joinFn.
Definition createAsyncJoin : closures -> closures * Join := new_join default_async_joinFn.

(** [execute: (contexts) => joinFn(contexts)], for both kinds of object. *)
Definition join_execute (cs : closures) (j : Join) (contexts : list val) : M val :=
  match join_vars cs !! join_var j with
  | Some joinFn => joinFn contexts
  | None => throw (JsError "TypeError: joinFn is not a function")
  end.

Definition assign_joinFn (fn : list val -> M val) (j : Join) (cs : closures) : closures * Join :=
  ({| join_vars := <[join_var j := fn]> (join_vars cs); cond_vars := cond_vars cs |},
   {| join_var := join_var j; join_is_root := false |}).

(** [withJoinFn]. On the object [create] returned it is
    [(fn) => { joinFn = fn; return {...} }]; on an object it returned it
    is [(newFn) => create().withJoinFn(newFn)]. *)
Definition withJoinFn_from (create : closures -> closures * Join)
    (fn : list val -> M val) (j : Join) (cs : closures) : closures * Join :=
  if join_is_root j then assign_joinFn fn j cs
  else let '(cs', fresh) := create cs in assign_joinFn fn fresh cs'.

Definition withJoinFn := withJoinFn_from createJoin.
Definition async_withJoinFn := withJoinFn_from createAsyncJoin.

(** The initial [conditionFn] of [createWhen]. *)
Definition default_conditionFn (condition : string) (context : val) : M val :=
  outcome ← getFromContext context "outcome" VUndef;
  mret (VBool (strict_eq outcome (VStr condition))).

Inductive When : Type :=
  | WhenRoot (var : nat) (condition : string) (targetNode : executable)
  | WhenDerived (fn : val -> M val) (condition : string) (targetNode : executable).

Definition createWhen (condition : string) (targetNode : executable) (cs : closures)
  : closures * When :=
  ({| join_vars := join_vars cs; cond_vars := cond_vars cs ++ [default_conditionFn condition] |},
   WhenRoot (length (cond_vars cs)) condition targetNode).

Definition when_execute (cs : closures) (w : When) (context : val) : M val :=
  match w with
  | WhenRoot var _ targetNode =>
      match cond_vars cs !! var with
      | Some conditionFn =>
          matches ← conditionFn context;
          if truthy matches then targetNode context else mret context
      | None => throw (JsError "TypeError: conditionFn is not a function")
      end
  | WhenDerived fn _ targetNode =>
      matches ← fn context;
      if truthy matches then targetNode context else mret context
  end.

Definition async_when_execute (cs : closures) (w : When) (context : val) : M val :=
  match w with
  | WhenRoot var _ targetNode =>
      match cond_vars cs !! var with
      | Some conditionFn =>
          matches ← conditionFn context;
          if truthy matches then safeExecute targetNode context else mret context
      | None => throw (JsError "TypeError: conditionFn is not a function")
      end
  | WhenDerived fn _ targetNode =>
      matches ← fn context;
      if truthy matches then safeExecute targetNode context else mret context
  end.

Definition assign_conditionFn (fn : val -> M val) (var : nat) (condition : string)
    (targetNode : executable) (cs : closures) : closures * When :=
  ({| join_vars := join_vars cs; cond_vars := <[var := fn]> (cond_vars cs) |},
   WhenDerived fn condition targetNode).

(** [withCondition]: [(fn) => { conditionFn = fn; return {...} }] on the
    object [createWhen] returned, [createWhen(...).withCondition(newFn)]
    on an object it returned. The same text serves [createAsyncWhen]. *)
Definition withCondition (fn : val -> M val) (w : When) (cs : closures) : closures * When :=
  match w with
  | WhenRoot var condition targetNode => assign_conditionFn fn var condition targetNode cs
  | WhenDerived _ condition targetNode =>
      assign_conditionFn fn (length (cond_vars cs)) condition targetNode
        (createWhen condition targetNode cs).1
  end.

(** ** Batch processors *)

Record BatchProcessor : Type := {
  processor : executable;
  concurrency : bound;
  itemsSelector : val -> M (list val);
  resultsCollector : val -> list val -> M val
}.

(** [(ctx, results) => ({ ...ctx, results })] *)
Definition default_resultsCollector (ctx : val) (results : list val) : M val :=
  resultsArray ← alloc (array results);
  h ← get_heap;
  alloc (plain (<["results" := resultsArray]> (spread h ctx))).

Definition createBatchProcessor (itemProcessor : executable) : BatchProcessor := {|
  processor := itemProcessor;
  concurrency := Finite DEFAULT_BATCH_CONCURRENCY;
  itemsSelector := fun _ => mret [];
  resultsCollector := default_resultsCollector
|}.

Definition withConcurrency (v : bound) (bp : BatchProcessor) : BatchProcessor :=
  {| processor := processor bp; concurrency := v; itemsSelector := itemsSelector bp;
     resultsCollector := resultsCollector bp |}.
Definition withItemsSelector (s : val -> M (list val)) (bp : BatchProcessor) : BatchProcessor :=
  {| processor := processor bp; concurrency := concurrency bp; itemsSelector := s;
     resultsCollector := resultsCollector bp |}.
Definition withResultsCollector (c : val -> list val -> M val) (bp : BatchProcessor)
  : BatchProcessor :=
  {| processor := processor bp; concurrency := concurrency bp;
     itemsSelector := itemsSelector bp; resultsCollector := c |}.

(** [Object.values(o)] of a keyed record, in an order the model does not
    fix. *)
Definition Object_values (o : gmap string val) : list val := (map_to_list o).*2.

(** [{ processed: false, error: <message> }] *)
Definition marker_fields (message : string) : gmap string val :=
  <["processed" := VBool false]> (<["error" := VStr message]> ∅).

Definition failure_marker (error : exn) : M val :=
  h ← get_heap; alloc (plain (marker_fields (error_text h error))).

(** The body of [chunk.forEach(item => ...)] in the synchronous
    processor. In [results[getResultKey(item, processor.execute(item))] =
    processor.execute(item)] the key expression is evaluated before the
    right-hand side. [results] is a local record of the engine. *)
Definition batch_item (processor : executable) (results : gmap string val) (item : val)
  : M (gmap string val) :=
  try_catch
    (first ← processor item;
     key ← getResultKey item first;
     second ← processor item;
     mret (<[key := second]> results))
    (fun error =>
       key ← getResultKey item VUndef;
       marker ← failure_marker error;
       mret (<[key := marker]> results)).

(** The keyed results the synchronous processor has built when it calls
    the collector. *)
Definition batch_results (processor : executable) (items : list val) : M (gmap string val) :=
  match chunkArray items (Z.min (Z.of_nat (length items)) 100) with
  | None => hang
  | Some chunks => foldM (fun results chunk => foldM (batch_item processor) results chunk) ∅ chunks
  end.

(** [createBatchProcessor(...).execute] *)
Definition batch_execute (bp : BatchProcessor) : executable := fun context =>
  items ← itemsSelector bp context;
  results ← batch_results (processor bp) items;
  resultsCollector bp context (Object_values results).

(** The per-item task of the asynchronous processor. *)
Definition async_batch_item (processor : executable) (item : val) : M (string * val) :=
  try_catch
    (result ← safeExecute processor item;
     key ← getResultKey item result;
     mret (key, result))
    (fun error =>
       key ← getResultKey item VUndef;
       marker ← failure_marker error;
       mret (key, marker)).

(** [keyedResults.reduce((acc, {key, result}) => setInContext(acc, key, result), {})] *)
Definition key_results (keyedResults : list (string * val)) : M val :=
  empty ← alloc (plain ∅);
  foldM (fun acc kr => setInContext acc kr.1 kr.2) empty keyedResults.

Definition async_batch_results (processor : executable) (concurrency : bound)
    (items : list val) : M (list val) :=
  keyedResults ← executeParallel items (async_batch_item processor) concurrency;
  keyed ← key_results keyedResults;
  h ← get_heap;
  mret (Object_values (spread h keyed)).

(** [createAsyncBatchProcessor(...).execute] *)
Definition async_batch_execute (bp : BatchProcessor) : executable := fun context =>
  items ← itemsSelector bp context;
  try_catch
    (results ← async_batch_results (processor bp) (concurrency bp) items;
     resultsCollector bp context results)
    (fun error => throw error).

(** ** Pipelines *)

(** [createPipeline(...nodes)]: the value is the list of its nodes. *)
Definition createPipeline (nodes : list executable) : list executable := nodes.

(** [withNode: (node) => createPipeline(...nodes, node)] *)
Definition pipeline_withNode (node : executable) (nodes : list executable) : list executable :=
  createPipeline (nodes ++ [node]).

(** [nodes.reduce((ctx, node) => node.execute(ctx), deepCopy(context))] *)
Definition pipeline_execute (nodes : list executable) : executable := fun context =>
  copy ← deepCopy context;
  foldM (fun ctx (node : executable) => node ctx) copy nodes.

(** [createAsyncPipeline(...nodes).execute] *)
Definition async_pipeline_execute (nodes : list executable) : executable := fun context =>
  copy ← deepCopy context;
  foldM (fun ctx (node : executable) => safeExecute node ctx) copy nodes.

(** ** Executors *)

(** [Object.keys(v)], of which only the failure matters here: a TypeError
    on [null] and [undefined]. *)
Definition Object_keys_guard (v : val) : M unit :=
  match v with
  | VUndef | VNull => throw (JsError "TypeError: cannot convert undefined or null to object")
  | _ => mret tt
  end.

(** [createExecutor().execute] *)
Definition executor_execute (node : executable) (context : val) : M val :=
  copy ← deepCopy context; node copy.

(** [createExecutor().executeWithFallback] *)
Definition executeWithFallback (node : executable) (context : val)
    (fallback : exn -> val -> M val) : M val :=
  try_catch
    (copy ← deepCopy context; node copy)
    (fun error =>
       h ← get_heap;
       let typedError := typed_error h error in
       copy ← deepCopy context;
       fallback typedError copy).

(** [createExecutor().executeWithLogging]; the elapsed time only goes to
    the log. The two [Object.keys] calls are arguments of [log]. *)
Definition executeWithLogging (node : executable) (context : val) : M val :=
  Object_keys_guard context;;
  try_catch
    (copy ← deepCopy context;
     result ← node copy;
     Object_keys_guard result;;
     mret result)
    (fun error => h ← get_heap; throw (typed_error h error)).

(** [createExecutor().executeWithProgress]: three steps chained by
    [pipe]. *)
Definition executeWithProgress (node : executable) (context : val)
    (progressCb : Z -> Z -> M unit) : M val :=
  pipe [ (fun ctx => progressCb 0 1;; deepCopy ctx);
         (fun ctx => node ctx);
         (fun ctx => progressCb 1 1;; mret ctx) ] context.

(** [createAsyncExecutor()] *)
Definition async_executor_execute (node : executable) (context : val) : M val :=
  copy ← deepCopy context; safeExecute node copy.

Definition async_executeWithFallback (node : executable) (context : val)
    (fallback : exn -> val -> M val) : M val :=
  try_catch
    (copy ← deepCopy context; safeExecute node copy)
    (fun error =>
       h ← get_heap;
       let typedError := typed_error h error in
       copy ← deepCopy context;
       fallback typedError copy).

Definition async_executeWithLogging (node : executable) (context : val) : M val :=
  Object_keys_guard context;;
  try_catch
    (copy ← deepCopy context;
     result ← safeExecute node copy;
     Object_keys_guard result;;
     mret result)
    (fun error => h ← get_heap; throw (typed_error h error)).

Definition async_executeWithProgress (node : executable) (context : val)
    (progressCb : Z -> Z -> M unit) : M val :=
  progressCb 0 1;;
  copy ← deepCopy context;
  result ← safeExecute node copy;
  progressCb 1 1;;
  mret result.

(** ** Instrumentation used by the statements *)

(** The error the source raises for exhausted attempts. *)
Definition RetryExhausted : exn := JsError ERROR_EXHAUSTED_RETRIES.

(** An executable whose every invocation is recorded in the trace. *)
Definition traced (f : executable) : executable := fun v w =>
  f v (with_event (EvInvoke v) w).

Definition invocations (w : world) : nat :=
  length (List.filter (fun e => match e with EvInvoke _ => true | _ => false end) (trace w)).

(** A user function that leaves the trace alone. *)
Definition silent (f : executable) : Prop :=
  forall v w, trace (f v w).1 = trace w.

(** A user function that returns or throws on every call. *)
Definition terminates (f : executable) : Prop :=
  forall v w, (f v w).2 <> Hang.


(** The predicate a policy retries by:
    [retryPolicy.retryPredicate || (() => true)]. *)
Definition policy_predicate (policy : RetryPolicy) : exn -> M val :=
  default (fun _ => mret (VBool true)) (retryPredicate policy).

(** What happens between two attempts: nothing in a synchronous node, a
    sleep of the backoff delay in an asynchronous one. *)
Definition policy_onRetry (async : bool) (policy : RetryPolicy) : Z -> M unit :=
  if async
  then fun attempt => sleep (calculateBackoff (attempt + 1) (delayMs policy) (backoff policy))
  else fun _ => mret tt.

(** The retry-wrapped [execute] of a node with a policy, as the two
    [execute] methods write it. *)
Definition retry_wrapped (async : bool) (n : Node) (policy : RetryPolicy)
    (prepareResult : val) : M val :=
  if async
  then executeWithRetries (executeFn n prepareResult) (maxAttempts policy)
         (default (fun _ => mret (VBool true)) (retryPredicate policy))
         (fun attempt =>
            sleep (calculateBackoff (attempt + 1) (delayMs policy) (backoff policy)))
  else sync_retry_rounds (Z.to_nat (maxAttempts policy)) 0 (executeFn n) prepareResult policy.

(** [retried execute shouldRetry onRetry k a w w']: starting in [w], the
    [k] attempts numbered [a], [a+1], ... all throw, the predicate accepts
    each error and [onRetry] returns; [w'] is the world in which attempt
    [a + k] starts. *)
Inductive retried (execute : M val) (shouldRetry : exn -> M val) (onRetry : Z -> M unit)
  : nat -> Z -> world -> world -> Prop :=
  | retried_none a w : retried execute shouldRetry onRetry O a w w
  | retried_more k a w w1 e w2 verdict w3 w' :
      execute w = (w1, Throw e) ->
      shouldRetry (typed_error (heap w1) e) w1 = (w2, Ok verdict) ->
      truthy verdict = true ->
      onRetry a w2 = (w3, Ok tt) ->
      retried execute shouldRetry onRetry k (a + 1) w3 w' ->
      retried execute shouldRetry onRetry (S k) a w w'.

(** The keyed record after storing the pairs in order: a later pair
    replaces an earlier one with the same key. *)
Definition store_all (kvs : list (string * val)) : gmap string val :=
  foldl (fun results kv => <[kv.1 := kv.2]> results) ∅ kvs.

(** The world and the reference after allocating the failure marker. *)
Definition marked (e : exn) (w : world) : world :=
  with_heap (heap w ++ [plain (marker_fields (error_text (heap w) e))]) w.

(** The per-item node throws [e] while the synchronous processor handles
    [item]: on the first invocation, or on the second. *)
Definition sync_item_throws (processor : executable) (item : val) (w w' : world) (e : exn)
  : Prop :=
  processor item w = (w', Throw e)
  \/ exists w1 first w2 key,
       processor item w = (w1, Ok first)
       /\ getResultKey item first w1 = (w2, Ok key)
       /\ processor item w2 = (w', Throw e).

(** What one item contributes in the synchronous processor: the second
    invocation's result under the key derived from the first, or a fresh
    failure marker under the key derived from the item alone. *)
Inductive sync_item_outcome (processor : executable) (item : val)
  : world -> world -> string * val -> Prop :=
  | sync_item_stored w w1 first w2 key w3 second :
      processor item w = (w1, Ok first) ->
      getResultKey item first w1 = (w2, Ok key) ->
      processor item w2 = (w3, Ok second) ->
      sync_item_outcome processor item w w3 (key, second)
  | sync_item_marked w w1 e w2 key :
      sync_item_throws processor item w w1 e ->
      getResultKey item VUndef w1 = (w2, Ok key) ->
      sync_item_outcome processor item w (marked e w2) (key, VRef (length (heap w2))).


(** The items are handled one after the other, each in the world the
    previous one left. *)
Inductive run_items (outcome : val -> world -> world -> string * val -> Prop)
  : list val -> world -> world -> list (string * val) -> Prop :=
  | run_items_nil w : run_items outcome [] w w []
  | run_items_cons item items w w1 kv w' kvs :
      outcome item w w1 kv ->
      run_items outcome items w1 w' kvs ->
      run_items outcome (item :: items) w w' (kv :: kvs).



(** A value that is not a reference, and its JSON text ([undefined] has
    none). *)
Definition primitive (v : val) : Prop :=
  match v with
  | VRef _ => False
  | _ => True
  end.

Definition json_of_primitive (v : val) : option json :=
  match v with
  | VNull => Some JNull
  | VBool b => Some (JBool b)
  | VNum n => Some (JNum n)
  | VStr s => Some (JStr s)
  | VUndef | VRef _ => None
  end.

(** The properties that survive [JSON.stringify]: those that are not
    [undefined]. *)
Definition defined_fields (fs : gmap string val) : gmap string val :=
  filter (fun kx : string * val => kx.2 <> VUndef) fs.

(** A value that is not a dangling reference. *)
Definition valid (h : list obj) (v : val) : Prop :=
  match v with
  | VRef l => (l < length h)%nat
  | _ => True
  end.

(** The properties of a left-to-right merge of [contexts]: each context
    overrides what the earlier ones gave. *)
Definition merged_fields (h : list obj) (contexts : list val) : gmap string val :=
  foldl (fun acc ctx => spread h ctx ∪ acc) ∅ contexts.



(** A value that, if it is a reference, points into the part of the heap
    from address [lo] up to (not including) [hi]; an object all of whose
    elements and properties are such values. *)
Definition within (lo hi : nat) (v : val) : Prop :=
  match v with
  | VRef l => (lo <= l < hi)%nat
  | _ => True
  end.

Definition obj_within (lo hi : nat) (o : obj) : Prop :=
  from_option (Forall (within lo hi)) True (o_elems o)
  /\ map_Forall (fun _ v => within lo hi v) (o_props o).

(** [refers h l l']: the object at [l] directly holds a reference to
    [l'] in a place [JSON.stringify] visits: an element of an array, a
    property of a record. *)
Definition refers (h : list obj) (l l' : loc) : Prop :=
  match h !! l with
  | Some (Obj (Some es) _) => VRef l' ∈ es
  | Some (Obj None fs) => exists k, fs !! k = Some (VRef l')
  | None => False
  end.

(** A heap with one record that holds itself: [o.self = o]. *)
Definition self_world : world :=
  World [plain {[ "self" := VRef O ]}] (fun _ => "t") O [].

(** ** Concrete scenarios *)

(** An empty heap; [Math.random] yields the tokens t0, t1, ... *)
Definition world0 : world := World [] (fun n => "t" +:+ pretty n) O [].

(** An object literal. *)
Definition record (fields : list (string * val)) : M val :=
  alloc (plain (list_to_map fields)).

(** A node body that always throws [new Error("boom")]. *)
Definition always_boom : val -> M val := fun _ => throw (JsError "boom").

Definition two_attempts : RetryPolicy :=
  {| maxAttempts := 2; delayMs := 10; backoff := linear; retryPredicate := None |}.

(** A node body that throws on its first call and returns "done" on the
    later ones; it counts its calls in the trace. *)
Definition fail_once : val -> M val := fun v w =>
  match invocations w with
  | O => (with_event (EvInvoke v) w, Throw (JsError "first call"))
  | S _ => (with_event (EvInvoke v) w, Ok (VStr "done"))
  end.

(** The world after [fail_once] has failed once and the asynchronous
    node has slept 10 ms. *)
Definition after_first_failure : world :=
  with_event (EvSleep 10) (with_event (EvInvoke (VNum 1)) world0).

(** A node body that throws the string "oops", and a policy of one
    attempt. *)
Definition throw_text : val -> M val := fun _ => throw (Thrown (VStr "oops")).

Definition one_attempt : RetryPolicy :=
  {| maxAttempts := 1; delayMs := 10; backoff := linear; retryPredicate := None |}.

Definition no_attempts : RetryPolicy :=
  {| maxAttempts := 0; delayMs := 10; backoff := linear; retryPredicate := None |}.

(** [.withPrepare(() => ({ a: 1 }))] run on the context [{ x: 0 }]; the
    result is the returned context and the world it is read in. *)
Definition merge_probe (execute : Node -> executable) : world * res val :=
  (context ← record [("x", VNum 0)];
   execute (withPrepare (fun _ => record [("a", VNum 1)]) createNode) context) world0.

(** [.withPrepare(ctx => { ctx.seen = true; return ctx })] run on the
    caller's context [{ x: 0 }], which is the object at address 0. *)
Definition prepare_probe (execute : Node -> executable) : world * res val :=
  (context ← record [("x", VNum 0)];
   execute (withPrepare (fun ctx => set_prop ctx "seen" (VBool true);; mret ctx) createNode)
           context) world0.

(** A branch whose finalize does [ctx.data.n = 1]. *)
Definition bump_nested : Node :=
  withFinalize (fun ctx _ _ =>
                  h ← get_heap;
                  set_prop (get_prop h ctx "data") "n" (VNum 1);;
                  mret (VStr "bumped"))
               createNode.

(** A fork of [bump_nested] and an untouched node over
    [{ data: { n: 0 } }]. *)
Definition fork_probe (fork : list executable -> val -> M (list val))
    (execute : Node -> executable) : world * res (list val) :=
  (data ← record [("n", VNum 0)];
   context ← record [("data", data)];
   fork [execute bump_nested; execute createNode] context) world0.

(** A join over [[{ a: 1 }, { a: 2, b: 3 }]]. *)
Definition join_probe (joinFn : list val -> M val) : world * res val :=
  (first ← record [("a", VNum 1)];
   second ← record [("a", VNum 2); ("b", VNum 3)];
   joinFn [first; second]) world0.

(** A user join function: it returns the last context it is given. *)
Definition take_last (contexts : list val) : M val :=
  mret (default VUndef (last contexts)).

(** A user predicate that never holds, and a target that stamps
    [visited: true]. *)
Definition never : val -> M val := fun _ => mret (VBool false).
Definition stamp_visited : executable := fun ctx =>
  set_prop ctx "visited" (VBool true);; mret ctx.

(** A branch that returns its context as it is. *)
Definition pass_through : executable := fun ctx => mret ctx.



Definition plain_batch : BatchProcessor :=
  withItemsSelector (fun _ => mret [VNum 1; VNum 2]) (createBatchProcessor pass_through).

(** A per-item executable that returns a fresh [{ key: <calls so far> }]
    on each call: the calls are counted in the trace. *)
Definition numbered : executable := fun _ =>
  fun w => record [("key", VNum (Z.of_nat (invocations w)))] w.

(** A computation that always returns and writes neither the heap nor
    the trace. *)
Definition quiet {A : Type} (m : M A) : Prop :=
  forall w, exists w' a, m w = (w', Ok a) /\ heap w' = heap w /\ trace w' = trace w.

(** * Properties *)

(** ** The monad *)

Section Monad.
Context {A B : Type}.
Implicit Types (m : M A) (f : A -> M B).

Lemma bind_ok m f w w' a : m w = (w', Ok a) -> (m ≫= f) w = f a w'.
Proof. intros H. unfold mbind, M_bind. by rewrite H. Qed.

Lemma bind_throw m f w w' e : m w = (w', Throw e) -> (m ≫= f) w = (w', Throw e).
Proof. intros H. unfold mbind, M_bind. by rewrite H. Qed.

Lemma bind_hang m f w w' : m w = (w', Hang) -> (m ≫= f) w = (w', Hang).
Proof. intros H. unfold mbind, M_bind. by rewrite H. Qed.

Lemma bind_ret (a : A) f w : (mret a ≫= f) w = f a w.
Proof. reflexivity. Qed.

Lemma try_ok m (k : exn -> M A) w w' a : m w = (w', Ok a) -> try_catch m k w = (w', Ok a).
Proof. intros H. unfold try_catch. by rewrite H. Qed.

Lemma try_throw m (k : exn -> M A) w w' e :
  m w = (w', Throw e) -> try_catch m k w = k e w'.
Proof. intros H. unfold try_catch. by rewrite H. Qed.

(** [catch (error) { throw error }] changes nothing. *)
Lemma try_rethrow m w : try_catch m (fun error => throw error) w = m w.
Proof. unfold try_catch, throw. by destruct (m w) as [w' [a|e|]]. Qed.
End Monad.

Lemma bind_get_heap {B : Type} (f : list obj -> M B) w : (get_heap ≫= f) w = f (heap w) w.
Proof. reflexivity. Qed.

(** Every bind and return of the goal and the hypotheses written out. *)
Ltac mred := unfold mbind, M_bind, mret, M_ret in *.

(** ** Heap facts *)

Lemma lookup_snoc_insert {A : Type} (l : list A) (x y : A) :
  <[length l := y]> (l ++ [x]) !! length l = Some y.
Proof. apply list_lookup_insert_eq. rewrite length_app. simpl. lia. Qed.

Lemma lookup_snoc {A : Type} (l : list A) (x : A) : (l ++ [x]) !! length l = Some x.
Proof. rewrite lookup_app_r by lia. by rewrite Nat.sub_diag. Qed.

Lemma with_heap_id w : with_heap (heap w) w = w.
Proof. by destruct w. Qed.

Lemma with_heap_twice h h' w : with_heap h' (with_heap h w) = with_heap h' w.
Proof. done. Qed.

Lemma spread_app h ext v : valid h v -> spread (h ++ ext) v = spread h v.
Proof.
  destruct v as [| | | | |l]; simpl; try done.
  intros Hl. by rewrite lookup_app_l.
Qed.

Lemma valid_app h ext v : valid h v -> valid (h ++ ext) v.
Proof. destruct v; simpl; try done. rewrite length_app. lia. Qed.

Lemma spread_fresh h fs : spread (h ++ [plain fs]) (VRef (length h)) = fs.
Proof. simpl. by rewrite lookup_snoc. Qed.

Lemma alloc_eq o w :
  alloc o w = (with_heap (heap w ++ [o]) w, Ok (VRef (length (heap w)))).
Proof. reflexivity. Qed.

Lemma setInContext_eq context key value w :
  setInContext context key value w
  = (with_heap (heap w ++ [plain (<[key := value]> (spread (heap w) context))]) w,
     Ok (VRef (length (heap w)))).
Proof. reflexivity. Qed.

(** ** [deepCopy] of a flat record *)

Lemma stringify_primitive fuel h v :
  primitive v -> stringify fuel h v = Some (json_of_primitive v).
Proof. by destruct v, fuel. Qed.

Lemma parse_primitive v j w : json_of_primitive v = Some j -> parse j w = (w, Ok v).
Proof. destruct v; simpl; intros [= <-]; done. Qed.

Lemma stringify_members fuel h (kxs : list (string * val)) :
  Forall (fun kx => primitive kx.2) kxs ->
  mapM (fun kx : string * val => fmap (M:=option) (pair kx.1) <$> stringify fuel h kx.2) kxs
  = Some ((fun kx : string * val => pair kx.1 <$> json_of_primitive kx.2) <$> kxs).
Proof.
  induction 1 as [|kx kxs Hkx _ IH]; [done |].
  cbn [mapM fmap list_fmap]. rewrite stringify_primitive by done.
  simpl. by rewrite IH.
Qed.

Lemma parse_members (kxs : list (string * val)) w :
  Forall (fun kx => primitive kx.2) kxs ->
  mapM (fun kx : string * json => v ← parse kx.2; mret (kx.1, v))
       (omap id ((fun kx : string * val => pair kx.1 <$> json_of_primitive kx.2) <$> kxs)) w
  = (w, Ok (filter (fun kx : string * val => kx.2 <> VUndef) kxs)).
Proof.
  induction 1 as [|[k v] kxs Hkx _ IH]; [done |].
  simpl in Hkx. rewrite fmap_cons. cbn [omap list_omap fst snd].
  destruct (json_of_primitive v) as [j|] eqn:Hj; cbn [fmap option_fmap option_map id].
  - cbn [mapM]. simpl. mred. rewrite (parse_primitive v j w Hj), IH.
    rewrite filter_cons_True; [done |]. simpl. by intros ->.
  - rewrite IH. rewrite filter_cons_False; [done |]. simpl.
    destruct v; try done. by intros [].
Qed.

(** A record whose properties are all primitive is copied into one fresh
    record with the same properties, those that are [undefined] left out;
    nothing else changes. *)
Lemma deepCopy_flat l fs w :
  heap w !! l = Some (plain fs) ->
  map_Forall (fun _ v => primitive v) fs ->
  deepCopy (VRef l) w
  = (with_heap (heap w ++ [plain (defined_fields fs)]) w, Ok (VRef (length (heap w)))).
Proof.
  intros Hl Hflat.
  assert (Hlist : Forall (fun kx : string * val => primitive kx.2) (map_to_list fs)).
  { apply Forall_forall. intros [k v] Hin. apply (Hflat k v).
    by apply elem_of_map_to_list. }
  unfold deepCopy. cbn [stringify]. rewrite Hl. unfold plain at 1.
  rewrite stringify_members by done. cbn [parse].
  erewrite bind_ok by (by apply parse_members).
  rewrite alloc_eq. unfold defined_fields. by rewrite map_filter_alt.
Qed.

(** ** Backoff *)

Lemma calculateBackoff_doubles attempt d :
  1 <= attempt ->
  calculateBackoff (attempt + 1) d exponential = 2 * calculateBackoff attempt d exponential.
Proof.
  intros H. unfold calculateBackoff.
  replace (attempt + 1 - 1) with (Z.succ (attempt - 1)) by lia.
  rewrite Z.pow_succ_r by lia. lia.
Qed.

(** C7. For a 1-based attempt number [n] and a base delay [d] the delay is
    [d * n] (linear), [d * 2^(n-1)] (exponential) and [d] (fixed); so
    linear(3, 10) = 30, exponential(3, 10) = 40 and fixed(n, 10) = 10. *)
Theorem calculateBackoff_formulas (n d : Z) :
  1 <= n ->
  calculateBackoff n d linear = d * n
  /\ calculateBackoff n d exponential = d * 2 ^ (n - 1)
  /\ calculateBackoff n d fixed = d
  /\ calculateBackoff 3 10 linear = 30
  /\ calculateBackoff 3 10 exponential = 40
  /\ calculateBackoff n 10 fixed = 10.
Proof. intros _. repeat split. Qed.

Lemma calculateBackoff_formulas_witness :
  1 <= 3
  /\ calculateBackoff 3 10 linear = 10 * 3
  /\ calculateBackoff 3 10 exponential = 10 * 2 ^ (3 - 1)
  /\ calculateBackoff 3 10 fixed = 10.
Proof.
  split; [lia |].
  destruct (calculateBackoff_formulas 3 10 ltac:(lia)) as (Hl & He & Hf & _).
  exact (conj Hl (conj He Hf)).
Defined.

(** ** Retry *)

(** The loop inside the synchronous [execute] is [executeWithRetries]
    with nothing done between attempts. *)
Lemma sync_retry_rounds_eq rounds attempt f p policy w :
  sync_retry_rounds rounds attempt f p policy w
  = retry_rounds rounds attempt (f p) (maxAttempts policy) (policy_predicate policy)
      (fun _ => mret tt) w.
Proof.
  assert (Hp : forall te, match retryPredicate policy with
                          | Some pred => pred te
                          | None => mret (VBool true)
                          end = policy_predicate policy te).
  { intros te. unfold policy_predicate. by destruct (retryPredicate policy). }
  revert attempt w. induction rounds as [|rounds IH]; intros attempt w; [done |].
  simpl. unfold try_catch. destruct (f p w) as [w1 [r|e|]]; [done | | done].
  unfold mbind, M_bind, get_heap. rewrite Hp.
  destruct (policy_predicate policy (typed_error (heap w1) e) w1) as [w2 [v| |]];
    [| done | done].
  destruct (negb (truthy v) || (maxAttempts policy - 1 <=? attempt)); [done |].
  apply IH.
Qed.

Lemma retry_wrapped_rounds async n policy p w :
  retry_wrapped async n policy p w
  = retry_rounds (Z.to_nat (maxAttempts policy)) 0 (executeFn n p) (maxAttempts policy)
      (policy_predicate policy) (policy_onRetry async policy) w.
Proof. destruct async; [done |]. apply sync_retry_rounds_eq. Qed.

(** After [j] retried failures, a failure that the predicate rejects, or
    that is the last round's, ends the loop with that failure's error. *)
Lemma retry_rounds_propagates execute shouldRetry onRetry j a w wj :
  retried execute shouldRetry onRetry j a w wj ->
  forall rounds maxA w1 e w2 verdict,
    (j < rounds)%nat ->
    maxA = a + Z.of_nat rounds ->
    execute wj = (w1, Throw e) ->
    shouldRetry (typed_error (heap w1) e) w1 = (w2, Ok verdict) ->
    truthy verdict = false \/ S j = rounds ->
    retry_rounds rounds a execute maxA shouldRetry onRetry w
    = (w2, Throw (typed_error (heap w1) e)).
Proof.
  induction 1 as [a w | k a w wa ea wb va wc w' Hex Hsr Hv Hon Hrest IH];
    intros rounds maxA w1 e w2 verdict Hlt HmaxA Hfail Hpred Hend;
    (destruct rounds as [|rounds]; [lia |]); simpl.
  - erewrite try_throw by eassumption.
    rewrite bind_get_heap. erewrite bind_ok by eassumption.
    replace (negb (truthy verdict) || (maxA - 1 <=? a)) with true; [done |].
    symmetry. apply orb_true_iff. destruct Hend as [-> | Hlast]; [by left |].
    right. apply Z.leb_le. lia.
  - erewrite try_throw by eassumption.
    rewrite bind_get_heap. erewrite bind_ok by eassumption.
    rewrite Hv. simpl.
    replace (maxA - 1 <=? a) with false by (symmetry; apply Z.leb_gt; lia).
    erewrite bind_ok by eassumption.
    eapply IH; [lia | lia | eassumption | eassumption |].
    destruct Hend as [Hrej | Hlast]; [by left | right; lia].
Qed.

(** The dedicated error is thrown only when there is no attempt at all. *)
Lemma retry_wrapped_no_attempt async n policy p w :
  maxAttempts policy <= 0 ->
  retry_wrapped async n policy p w = (w, Throw RetryExhausted).
Proof.
  intros H. rewrite retry_wrapped_rounds.
  replace (Z.to_nat (maxAttempts policy)) with O by lia. done.
Qed.

(** A first attempt that returns ends the loop with its value. *)
Lemma retry_wrapped_first_success async n policy p w w' r :
  1 <= maxAttempts policy ->
  executeFn n p w = (w', Ok r) ->
  retry_wrapped async n policy p w = (w', Ok r).
Proof.
  intros H Hex. rewrite retry_wrapped_rounds.
  destruct (Z.to_nat (maxAttempts policy)) as [|rounds] eqn:E; [lia |].
  simpl. by erewrite try_ok.
Qed.

(** C2, as the code has it. Take a retry-wrapped execute (synchronous or
    asynchronous) with [k] attempts. If its first [j < k] attempts fail
    and are retried, and the next attempt fails with an error that the
    predicate rejects, that error (turned into an Error when it is not
    one) propagates at once. If all [k] attempts fail with the predicate
    accepting each error ([j = k - 1]), the error that propagates is
    again the last attempt's own error: no separate RetryExhausted error
    is raised. *)
Theorem retry_propagates_attempt_error
    (async : bool) (n : Node) (policy : RetryPolicy) (p : val) (k j : nat)
    (w wj w1 w2 : world) (e : exn) (verdict : val) :
  maxAttempts policy = Z.of_nat k ->
  (j < k)%nat ->
  retried (executeFn n p) (policy_predicate policy) (policy_onRetry async policy) j 0 w wj ->
  executeFn n p wj = (w1, Throw e) ->
  policy_predicate policy (typed_error (heap w1) e) w1 = (w2, Ok verdict) ->
  truthy verdict = false \/ S j = k ->
  retry_wrapped async n policy p w = (w2, Throw (typed_error (heap w1) e)).
Proof.
  intros Hk Hlt Hretried Hfail Hpred Hend.
  rewrite retry_wrapped_rounds, Hk, Nat2Z.id.
  eapply retry_rounds_propagates; eauto; lia.
Qed.

Lemma retry_propagates_attempt_error_witness :
  retry_wrapped false (withExecuteLogic always_boom createNode) two_attempts (VNum 1) world0
  = (world0, Throw (JsError "boom")).
Proof.
  apply (retry_propagates_attempt_error false (withExecuteLogic always_boom createNode)
           two_attempts (VNum 1) 2 1 world0 world0 world0 world0 (JsError "boom")
           (VBool true)).
  - reflexivity.
  - lia.
  - apply (retried_more _ _ _ O 0 world0 world0 (JsError "boom") world0 (VBool true) world0);
      try reflexivity.
    apply retried_none.
  - reflexivity.
  - reflexivity.
  - right. reflexivity.
Defined.

(** Between attempts the asynchronous node sleeps
    [calculateBackoff(attempt + 1, ...)], [attempt] being the 0-based
    index of the attempt that just failed; the synchronous node does not
    wait. With 4 attempts, a base of 10 and exponential backoff the waits
    are 10, 20 and 40 (the trace lists the newest first). *)
Lemma async_retry_sleeps :
  let policy := createRetryPolicyConfig (Some 4) (Some 10) None None in
  let n := withRetry policy (withExecuteLogic always_boom createNode) in
  slept (async_node_execute n (VNum 1) world0).1
  = [calculateBackoff 3 10 exponential; calculateBackoff 2 10 exponential;
     calculateBackoff 1 10 exponential]
  /\ slept (node_execute n (VNum 1) world0).1 = [].
Proof. vm_compute. split; reflexivity. Qed.

(** C2 as stated fails: a node whose execute throws "boom" on both of
    its 2 attempts, every error accepted, propagates "boom" and not the
    exhausted-retries error; sync and async alike. *)
Lemma retry_exhausted_counterexample :
  let n := withRetry two_attempts (withExecuteLogic always_boom createNode) in
  (node_execute n (VNum 1) world0).2 = Throw (JsError "boom")
  /\ (async_node_execute n (VNum 1) world0).2 = Throw (JsError "boom")
  /\ JsError "boom" <> RetryExhausted.
Proof.
  intros n. split; [| split].
  - vm_compute. reflexivity.
  - vm_compute. reflexivity.
  - discriminate.
Qed.

(** An error that leaves the retry loop leaves the node unchanged. *)
Lemma node_execute_retry_error n policy context w w1 copy w2 p w3 e :
  retryPolicy n = Some policy ->
  deepCopy context w = (w1, Ok copy) ->
  prepareFn n copy w1 = (w2, Ok p) ->
  retry_wrapped false n policy p w2 = (w3, Throw e) ->
  node_execute n context w = (w3, Throw e).
Proof.
  intros Hpolicy Hcopy Hprep Hretry.
  unfold node_execute. rewrite try_rethrow, Hpolicy.
  erewrite bind_ok by exact Hcopy. erewrite bind_ok by exact Hprep.
  by erewrite bind_throw by exact Hretry.
Qed.

Lemma async_node_execute_retry_error n policy context w w2 p w3 e :
  retryPolicy n = Some policy ->
  prepareFn n context w = (w2, Ok p) ->
  retry_wrapped true n policy p w2 = (w3, Throw e) ->
  async_node_execute n context w = (w3, Throw e).
Proof.
  intros Hpolicy Hprep Hretry.
  unfold async_node_execute. rewrite try_rethrow, Hpolicy.
  erewrite bind_ok by exact Hprep.
  by erewrite bind_throw by exact Hretry.
Qed.

(** ** Nodes and their context *)

Lemma merge_steps_extend (kvs : list (string * val)) context w :
  exists ext context',
    foldM (fun (context : val) (kv : string * val) =>
             h' ← get_heap;
             if negb (strict_eq (get_prop h' context kv.1) kv.2)
             then setInContext context kv.1 kv.2
             else mret context) context kvs w
    = (with_heap (heap w ++ ext) w, Ok context').
Proof.
  revert context w. induction kvs as [|kv kvs IH]; intros context w; simpl.
  - exists [], context. by rewrite app_nil_r, with_heap_id.
  - unfold mbind at 1, M_bind at 1. rewrite bind_get_heap.
    destruct (negb (strict_eq (get_prop (heap w) context kv.1) kv.2)).
    + rewrite setInContext_eq.
      destruct (IH (VRef (length (heap w)))
                  (with_heap (heap w ++ [plain (<[kv.1 := kv.2]> (spread (heap w) context))]) w))
        as (ext & context' & ->).
      eexists (_ :: ext), context'. simpl. by rewrite <- app_assoc.
    + apply IH.
Qed.

(** Whatever the context and the prepare result are, [mergeContext]
    returns normally and only adds objects to the heap: every object that
    existed before the call, the caller's context among them, is as it
    was. *)
Lemma mergeContext_extends context prepareResult w :
  exists ext, mergeContext context prepareResult w = (with_heap (heap w ++ ext) w, Ok tt).
Proof.
  unfold mergeContext.
  destruct (negb (truthy prepareResult) || negb (typeof_object prepareResult)
            || strict_eq prepareResult VNull || strict_eq prepareResult context
            || negb (truthy context)).
  - exists []. by rewrite app_nil_r, with_heap_id.
  - rewrite bind_get_heap.
    destruct (merge_steps_extend
                (List.filter (fun kv : string * val =>
                                merge_keeps (heap w) (get_prop (heap w) prepareResult "snapshot") kv.1)
                             (entries (heap w) prepareResult)) context w)
      as (ext & context' & Hfold).
    exists ext. by erewrite bind_ok by exact Hfold.
Qed.

Lemma mergeContext_frame context prepareResult w l :
  (l < length (heap w))%nat ->
  heap (mergeContext context prepareResult w).1 !! l = heap w !! l.
Proof.
  intros Hl. destruct (mergeContext_extends context prepareResult w) as (ext & ->).
  simpl. by apply lookup_app_l.
Qed.

(** C1 fails on the code: a node whose prepare returns [{ a: 1 }], run on
    the context [{ x: 0 }], returns that same context object (address 0)
    still holding [x] alone; the key [a] of the prepare result is not on
    it. Synchronous and asynchronous nodes alike. *)
Theorem prepare_result_not_merged :
  ((merge_probe node_execute).2 = Ok (VRef 0%nat)
   /\ spread (heap (merge_probe node_execute).1) (VRef 0%nat) = {[ "x" := VNum 0 ]}
   /\ has_prop (heap (merge_probe node_execute).1) (VRef 0%nat) "a" = false)
  /\ ((merge_probe async_node_execute).2 = Ok (VRef 0%nat)
      /\ spread (heap (merge_probe async_node_execute).1) (VRef 0%nat) = {[ "x" := VNum 0 ]}
      /\ has_prop (heap (merge_probe async_node_execute).1) (VRef 0%nat) "a" = false).
Proof. vm_compute. repeat split. Qed.

(** The one key the synchronous node does copy is ['iterations']. *)
Lemma iterations_is_copied :
  let run := (context ← record [("x", VNum 0)];
              node_execute (withPrepare (fun _ => record [("iterations", VNum 7)]) createNode)
                           context) world0 in
  run.2 = Ok (VRef 0%nat)
  /\ get_prop (heap run.1) (VRef 0%nat) "iterations" = VNum 7.
Proof. vm_compute. repeat split. Qed.

Lemma get_prop_app h ext v key : valid h v -> get_prop (h ++ ext) v key = get_prop h v key.
Proof.
  destruct v as [| | | | |l]; simpl; try done.
  intros Hl. by rewrite lookup_app_l.
Qed.

(** Assigning one property changes no other property of any object. *)
Lemma get_prop_set_prop_ne v k x w v' key :
  key <> k ->
  get_prop (heap (set_prop v k x w).1) v' key = get_prop (heap w) v' key.
Proof.
  intros Hne. unfold set_prop.
  destruct v as [| | | | |l]; try done.
  destruct (heap w !! l) as [o|] eqn:Hl; [| done]. cbn [fst heap with_heap].
  destruct v' as [| | | | |l']; try done. simpl.
  destruct (decide (l' = l)) as [-> | Hl'].
  - rewrite list_lookup_insert_eq by (by eapply lookup_lt_Some).
    rewrite Hl. destruct o as [[es|] props]; simpl.
    + destruct (String.eqb key "length"); [done |].
      unfold own_fields. simpl. by rewrite !lookup_union, lookup_insert_ne.
    + by rewrite lookup_insert_ne.
  - by rewrite list_lookup_insert_ne.
Qed.

Lemma set_prop_valid v k x w v' :
  valid (heap w) v' -> valid (heap (set_prop v k x w).1) v'.
Proof.
  unfold set_prop. destruct v as [| | | | |l]; try done.
  destruct (heap w !! l); [| done]. destruct v'; try done. simpl.
  by rewrite length_insert.
Qed.

Lemma set_prop_ok v k x w : (set_prop v k x w).2 = Ok tt.
Proof. unfold set_prop. destruct v; try done. by destruct (heap w !! l). Qed.

(** Once prepare, execute and finalize have returned, the synchronous
    node returns the caller's context object, and what that object holds
    under any key but ['iterations'] is what finalize left there: the
    merge of the prepare result adds nothing to it. *)
Lemma node_execute_after_finalize n context w w1 copy w2 p w3 e w4 outcome :
  deepCopy context w = (w1, Ok copy) ->
  prepareFn n copy w1 = (w2, Ok p) ->
  match retryPolicy n with
  | None => executeFn n p
  | Some policy => retry_wrapped false n policy p
  end w2 = (w3, Ok e) ->
  finalizeFn n context p e w3 = (w4, Ok outcome) ->
  valid (heap w4) context ->
  exists w',
    node_execute n context w = (w', Ok context)
    /\ forall key, key <> "iterations" ->
         get_prop (heap w') context key = get_prop (heap w4) context key.
Proof.
  intros Hcopy Hprep Hexec Hfin Hvalid.
  set (step :=
         if typeof_object p && negb (strict_eq p VNull) && has_prop (heap w4) p "iterations"
         then updateContextProperty context "iterations" (get_prop (heap w4) p "iterations")
         else mret tt).
  assert (Hstep : exists w5,
             step w4 = (w5, Ok tt)
             /\ valid (heap w5) context
             /\ forall key, key <> "iterations" ->
                  get_prop (heap w5) context key = get_prop (heap w4) context key).
  { unfold step, updateContextProperty.
    destruct (typeof_object p && negb (strict_eq p VNull) && has_prop (heap w4) p "iterations");
      [| by exists w4].
    destruct (truthy context && typeof_object context); [| by exists w4].
    exists (set_prop context "iterations" (get_prop (heap w4) p "iterations") w4).1.
    split; [| split].
    - rewrite (surjective_pairing (set_prop _ _ _ _)). by rewrite set_prop_ok.
    - by apply set_prop_valid.
    - intros key Hkey. by apply get_prop_set_prop_ne. }
  destruct Hstep as (w5 & Hw5 & Hvalid5 & Hkeep).
  destruct (mergeContext_extends context p w5) as (ext & Hmerge).
  exists (with_heap (heap w5 ++ ext) w5). split.
  - unfold node_execute. rewrite try_rethrow.
    erewrite bind_ok by exact Hcopy. erewrite bind_ok by exact Hprep.
    erewrite bind_ok.
    2: { destruct (retryPolicy n); exact Hexec. }
    erewrite bind_ok by exact Hfin. rewrite bind_get_heap.
    fold step. erewrite bind_ok by exact Hw5.
    by erewrite bind_ok by exact Hmerge.
  - intros key Hkey. cbn [heap with_heap]. rewrite get_prop_app by done. by apply Hkeep.
Qed.

(** The same for the asynchronous node, which has no exception for
    ['iterations']. *)
Lemma async_node_execute_after_finalize n context w w2 p w3 e w4 outcome :
  prepareFn n context w = (w2, Ok p) ->
  match retryPolicy n with
  | None => executeFn n p
  | Some policy => retry_wrapped true n policy p
  end w2 = (w3, Ok e) ->
  finalizeFn n context p e w3 = (w4, Ok outcome) ->
  valid (heap w4) context ->
  exists w',
    async_node_execute n context w = (w', Ok context)
    /\ forall key, get_prop (heap w') context key = get_prop (heap w4) context key.
Proof.
  intros Hprep Hexec Hfin Hvalid.
  destruct (mergeContext_extends context p w4) as (ext & Hmerge).
  exists (with_heap (heap w4 ++ ext) w4). split.
  - unfold async_node_execute. rewrite try_rethrow.
    erewrite bind_ok by exact Hprep.
    erewrite bind_ok.
    2: { destruct (retryPolicy n); exact Hexec. }
    erewrite bind_ok by exact Hfin.
    by erewrite bind_ok by exact Hmerge.
  - intros key. cbn [heap with_heap]. by rewrite get_prop_app.
Qed.

(** C4 fails on the code: an asynchronous node whose prepare sets
    [ctx.seen = true] leaves that property on the caller's context object
    (address 0); the synchronous node, which copies first, does not. *)
Theorem async_prepare_sees_caller_context :
  get_prop (heap (prepare_probe async_node_execute).1) (VRef 0%nat) "seen" = VBool true
  /\ get_prop (heap (prepare_probe node_execute).1) (VRef 0%nat) "seen" = VUndef.
Proof. vm_compute. repeat split. Qed.

(** ** Fork *)






(** For a record of primitive properties the one element of a
    branchless fork is a record other than the input, holding the
    input's (defined) properties and outcome "forked". *)
Lemma fork_no_branch_flat l fs w :
  heap w !! l = Some (plain fs) ->
  map_Forall (fun _ v => primitive v) fs ->
  exists w',
    fork_execute [] (VRef l) w = (w', Ok [VRef (S (length (heap w)))])
    /\ async_fork_execute [] (VRef l) w = (w', Ok [VRef (S (length (heap w)))])
    /\ S (length (heap w)) <> l
    /\ spread (heap w') (VRef (S (length (heap w))))
       = <["outcome" := VStr "forked"]> (defined_fields fs).
Proof.
  intros Hl Hflat. pose proof (deepCopy_flat l fs w Hl Hflat) as Hcopy.
  set (copied := heap w ++ [plain (defined_fields fs)]).
  assert (Hlen : length copied = S (length (heap w))).
  { unfold copied. rewrite length_app. simpl. lia. }
  exists (with_heap
            (copied ++ [plain (<["outcome" := VStr "forked"]> (defined_fields fs))]) w).
  assert (Hrun :
             (copiedContext ← deepCopy (VRef l);
              h ← get_heap;
              tagged ← alloc (plain (<["outcome" := VStr DEFAULT_FORK_OUTCOME]>
                                       (spread h copiedContext)));
              mret [tagged]) w
             = (with_heap
                  (copied ++ [plain (<["outcome" := VStr "forked"]> (defined_fields fs))]) w,
                Ok [VRef (S (length (heap w)))])).
  { erewrite bind_ok by exact Hcopy.
    rewrite bind_get_heap. erewrite bind_ok by apply alloc_eq.
    cbn [heap with_heap]. rewrite spread_fresh. fold copied. by rewrite Hlen. }
  split; [| split; [| split]].
  - exact Hrun.
  - exact Hrun.
  - apply lookup_lt_Some in Hl. lia.
  - cbn [heap with_heap]. rewrite <- Hlen. apply spread_fresh.
Qed.

(** With no branch, [{ x: 1 }] gives the one-element list holding
    [{ x: 1, outcome: "forked" }], a record other than the input. *)
Lemma fork_without_branches :
  let run := (context ← record [("x", VNum 1)]; fork_execute [] context) world0 in
  run.2 = Ok [VRef 2%nat]
  /\ spread (heap run.1) (VRef 2%nat) = {[ "x" := VNum 1; "outcome" := VStr "forked" ]}.
Proof. vm_compute. repeat split. Qed.

(** C3 fails on the code: in a fork of two branches over
    [{ data: { n: 0 } }] the two result contexts are different records
    whose [data] is one and the same object, and the first branch's
    [ctx.data.n = 1] shows in the second branch's context. *)
Theorem fork_branches_share_nested :
  let shared (run : world * res (list val)) (first second : val) :=
    run.2 = Ok [first; second]
    /\ first <> second
    /\ get_prop (heap run.1) first "data" = VRef 2%nat
    /\ get_prop (heap run.1) second "data" = VRef 2%nat
    /\ get_prop (heap run.1) (get_prop (heap run.1) second "data") "n" = VNum 1 in
  shared (fork_probe fork_execute node_execute) (VRef 4%nat) (VRef 8%nat)
  /\ shared (fork_probe async_fork_execute async_node_execute) (VRef 4%nat) (VRef 5%nat).
Proof. vm_compute. repeat split; discriminate. Qed.

(** ** Join *)

(** [compose] applies the last function first, so the synchronous default
    join merges the contexts from the last to the first: it is the
    asynchronous one on the reversed list. *)
Lemma compose_merge_steps (contexts : list val) acc w :
  foldM (fun result (fn : val -> M val) => fn result) acc
        ((fun ctx acc => merge_two acc ctx) <$> contexts) w
  = foldM merge_two acc contexts w.
Proof.
  revert acc w. induction contexts as [|c contexts IH]; intros acc w; simpl; [done |].
  unfold mbind, M_bind. destruct (merge_two acc c w) as [w' [a| |]]; auto.
Qed.

Lemma default_joinFn_reverse contexts w :
  default_joinFn contexts w = default_async_joinFn (reverse contexts) w.
Proof.
  unfold default_joinFn, default_async_joinFn, compose.
  rewrite <- fmap_reverse.
  unfold mbind at 1 3, M_bind at 1 3. rewrite alloc_eq.
  unfold mbind at 1 3, M_bind at 1 3. by rewrite compose_merge_steps.
Qed.

Lemma merge_two_eq acc ctx w :
  merge_two acc ctx w
  = (with_heap (heap w ++ [plain (spread (heap w) ctx ∪ spread (heap w) acc)]) w,
     Ok (VRef (length (heap w)))).
Proof. reflexivity. Qed.

(** The running merge of a [reduce] over valid contexts. *)
Lemma merge_fold_fields (h0 : list obj) contexts :
  Forall (valid h0) contexts ->
  forall acc w ext,
    heap w = h0 ++ ext ->
    exists w' acc' ext',
      foldM merge_two acc contexts w = (w', Ok acc')
      /\ heap w' = h0 ++ ext'
      /\ spread (heap w') acc'
         = foldl (fun a ctx => spread h0 ctx ∪ a) (spread (heap w) acc) contexts.
Proof.
  induction 1 as [|ctx contexts Hctx _ IH]; intros acc w ext Hw; simpl.
  - by exists w, acc, ext.
  - erewrite bind_ok by apply merge_two_eq.
    destruct (IH (VRef (length (heap w)))
                (with_heap (heap w ++ [plain (spread (heap w) ctx ∪ spread (heap w) acc)]) w)
                (ext ++ [plain (spread (heap w) ctx ∪ spread (heap w) acc)]))
      as (w' & acc' & ext' & Hfold & Hheap & Hfields).
    { simpl. by rewrite Hw, app_assoc. }
    exists w', acc', ext'. split; [done |]. split; [done |].
    rewrite Hfields. cbn [foldl heap with_heap]. rewrite spread_fresh.
    by rewrite Hw, spread_app.
Qed.

Lemma set_prop_fresh h fs key x w :
  heap w = h ++ [plain fs] ->
  set_prop (VRef (length h)) key x w
  = (with_heap (h ++ [plain (<[key := x]> fs)]) w, Ok tt).
Proof.
  intros Hw. unfold set_prop. rewrite Hw, lookup_snoc. simpl.
  do 2 f_equal.
  replace (length h) with (length h + 0)%nat at 1 by lia.
  by rewrite insert_app_r.
Qed.

(** The asynchronous default join over valid contexts returns a fresh
    record holding the left-to-right merge, tagged "joined". *)
Lemma default_async_joinFn_fields contexts w :
  Forall (valid (heap w)) contexts ->
  exists w' l,
    default_async_joinFn contexts w = (w', Ok (VRef l))
    /\ spread (heap w') (VRef l)
       = <["outcome" := VStr DEFAULT_JOIN_OUTCOME]> (merged_fields (heap w) contexts).
Proof.
  intros Hvalid. unfold default_async_joinFn.
  erewrite bind_ok by apply alloc_eq.
  destruct (merge_fold_fields (heap w) contexts Hvalid (VRef (length (heap w)))
              (with_heap (heap w ++ [plain ∅]) w) [plain ∅] eq_refl)
    as (w1 & merged & ext & Hfold & Hheap & Hfields).
  erewrite bind_ok by exact Hfold.
  rewrite bind_get_heap. erewrite bind_ok by apply alloc_eq.
  erewrite bind_ok by (apply set_prop_fresh; reflexivity).
  eexists _, _. split; [reflexivity |].
  cbn [heap with_heap]. rewrite spread_fresh, Hfields.
  cbn [heap with_heap]. by rewrite spread_fresh.
Qed.

(** In a left-to-right merge the last context holding a key decides it. *)
Lemma merged_fields_later_wins h earlier ctx later key v :
  spread h ctx !! key = Some v ->
  Forall (fun c => spread h c !! key = None) later ->
  merged_fields h (earlier ++ ctx :: later) !! key = Some v.
Proof.
  intros Hctx Hlater. unfold merged_fields. rewrite foldl_app. simpl.
  generalize (foldl (fun acc c => spread h c ∪ acc) ∅ earlier). intros base.
  assert (Hstart : (spread h ctx ∪ base) !! key = Some v) by by apply lookup_union_Some_l.
  revert Hstart. generalize (spread h ctx ∪ base). clear Hctx.
  induction Hlater as [|c later Hc _ IH]; intros acc Hacc; simpl; [done |].
  apply IH. by rewrite lookup_union_r.
Qed.

(** AsyncJoin does what C5 says: over valid contexts, a key other than
    "outcome" gets the value of the last context that holds it, and the
    result is tagged "joined". *)
Lemma async_join_later_wins earlier ctx later key v w :
  Forall (valid (heap w)) (earlier ++ ctx :: later) ->
  key <> "outcome" ->
  spread (heap w) ctx !! key = Some v ->
  Forall (fun c => spread (heap w) c !! key = None) later ->
  exists w' l,
    default_async_joinFn (earlier ++ ctx :: later) w = (w', Ok (VRef l))
    /\ spread (heap w') (VRef l) !! key = Some v
    /\ spread (heap w') (VRef l) !! "outcome" = Some (VStr "joined").
Proof.
  intros Hvalid Hkey Hctx Hlater.
  destruct (default_async_joinFn_fields _ w Hvalid) as (w' & l & Hrun & Hfields).
  exists w', l. split; [done |]. rewrite Hfields. split.
  - rewrite lookup_insert_ne by done. by apply merged_fields_later_wins.
  - by rewrite lookup_insert_eq.
Qed.

(** The synchronous Join does the opposite: the first context that holds
    a key decides it. *)
Lemma sync_join_earlier_wins earlier ctx later key v w :
  Forall (valid (heap w)) (earlier ++ ctx :: later) ->
  key <> "outcome" ->
  spread (heap w) ctx !! key = Some v ->
  Forall (fun c => spread (heap w) c !! key = None) earlier ->
  exists w' l,
    default_joinFn (earlier ++ ctx :: later) w = (w', Ok (VRef l))
    /\ spread (heap w') (VRef l) !! key = Some v
    /\ spread (heap w') (VRef l) !! "outcome" = Some (VStr "joined").
Proof.
  intros Hvalid Hkey Hctx Hearlier.
  rewrite default_joinFn_reverse, reverse_app, reverse_cons, <- app_assoc. simpl.
  apply async_join_later_wins; try done.
  - apply Forall_reverse in Hvalid.
    by rewrite reverse_app, reverse_cons, <- app_assoc in Hvalid.
  - by apply Forall_reverse.
Qed.

(** C5 fails on the code for the synchronous Join. Over
    [[{ a: 1 }, { a: 2, b: 3 }]] the default Join returns a record with
    [a = 1], the value of the earlier context; the default AsyncJoin
    returns [a = 2]. Both carry outcome "joined". *)
Theorem sync_join_prefers_earlier :
  let fields (run : world * res val) (key : string) :=
    match run.2 with
    | Ok result => get_prop (heap run.1) result key
    | _ => VUndef
    end in
  fields (join_probe default_joinFn) "a" = VNum 1
  /\ fields (join_probe default_joinFn) "b" = VNum 3
  /\ fields (join_probe default_joinFn) "outcome" = VStr "joined"
  /\ fields (join_probe default_async_joinFn) "a" = VNum 2
  /\ fields (join_probe default_async_joinFn) "b" = VNum 3
  /\ fields (join_probe default_async_joinFn) "outcome" = VStr "joined".
Proof. vm_compute. repeat split. Qed.

(** ** Builders of Join and When *)

(** Before any [withJoinFn], a join runs the function it was created with. *)
Lemma new_join_execute initial cs contexts :
  join_execute (new_join initial cs).1 (new_join initial cs).2 contexts = initial contexts.
Proof. unfold join_execute, new_join. simpl. by rewrite lookup_snoc. Qed.

(** [withJoinFn] on the object [create] returned assigns the closure
    variable that this object's own [execute] reads. *)
Lemma withJoinFn_from_overwrites create initial fn cs contexts :
  let j := (new_join initial cs).2 in
  let cs1 := (new_join initial cs).1 in
  join_execute (withJoinFn_from create fn j cs1).1 j contexts = fn contexts.
Proof. unfold join_execute, withJoinFn_from, new_join. simpl. by rewrite lookup_snoc_insert. Qed.

(** C9 fails on the code. After [j2 = j.withJoinFn(fn)] the original
    join [j] runs [fn], not the default merge; after
    [w2 = w.withCondition(fn)] the original gate [w] decides by [fn], not
    by its previous predicate. Sync and async objects alike. *)
Theorem with_builders_overwrite_receiver
    (cs : closures) (joinFn : list val -> M val) (conditionFn : val -> M val)
    (condition : string) (targetNode : executable) (contexts : list val) (context : val) :
  let j := (createJoin cs).2 in
  let aj := (createAsyncJoin cs).2 in
  let w := (createWhen condition targetNode cs).2 in
  join_execute (createJoin cs).1 j contexts = default_joinFn contexts
  /\ join_execute (withJoinFn joinFn j (createJoin cs).1).1 j contexts = joinFn contexts
  /\ join_execute (createAsyncJoin cs).1 aj contexts = default_async_joinFn contexts
  /\ join_execute (async_withJoinFn joinFn aj (createAsyncJoin cs).1).1 aj contexts
     = joinFn contexts
  /\ when_execute (createWhen condition targetNode cs).1 w context
     = (matches ← default_conditionFn condition context;
        if truthy matches then targetNode context else mret context)
  /\ when_execute (withCondition conditionFn w (createWhen condition targetNode cs).1).1 w context
     = (matches ← conditionFn context;
        if truthy matches then targetNode context else mret context)
  /\ async_when_execute (withCondition conditionFn w (createWhen condition targetNode cs).1).1
       w context
     = (matches ← conditionFn context;
        if truthy matches then safeExecute targetNode context else mret context).
Proof.
  simpl. repeat split.
  - apply new_join_execute.
  - apply (withJoinFn_from_overwrites createJoin).
  - apply new_join_execute.
  - apply (withJoinFn_from_overwrites createAsyncJoin).
  - unfold when_execute, createWhen. simpl. by rewrite lookup_snoc.
  - unfold when_execute, withCondition, assign_conditionFn, createWhen. simpl.
    by rewrite lookup_snoc_insert.
  - unfold async_when_execute, withCondition, assign_conditionFn, createWhen. simpl.
    by rewrite lookup_snoc_insert.
Qed.

(** The difference is observable: over [[{ a: 1 }, { a: 2, b: 3 }]] a
    fresh join returns a new record tagged "joined"; once
    [j.withJoinFn(take_last)] has been called, the same [j] returns the
    second context itself. *)
Lemma withJoinFn_observable :
  let j := (createJoin no_closures).2 in
  let before := join_probe (join_execute (createJoin no_closures).1 j) in
  let after := join_probe (join_execute (withJoinFn take_last j (createJoin no_closures).1).1 j) in
  before.2 = Ok (VRef 5%nat)
  /\ get_prop (heap before.1) (VRef 5%nat) "outcome" = VStr "joined"
  /\ after.2 = Ok (VRef 1%nat)
  /\ get_prop (heap after.1) (VRef 1%nat) "outcome" = VUndef.
Proof. vm_compute. repeat split. Qed.

(** A gate created for the outcome "go" runs its target on
    [{ outcome: "go" }]; once [w.withCondition(never)] has been called,
    the same [w] skips it. *)
Lemma withCondition_observable :
  let cs := (createWhen "go" stamp_visited no_closures).1 in
  let w := (createWhen "go" stamp_visited no_closures).2 in
  let run cs := (context ← record [("outcome", VStr "go")]; when_execute cs w context) world0 in
  get_prop (heap (run cs).1) (VRef 0%nat) "visited" = VBool true
  /\ get_prop (heap (run (withCondition never w cs).1).1) (VRef 0%nat) "visited" = VUndef.
Proof. vm_compute. repeat split. Qed.

(** ** Result keys *)

Lemma quiet_ret {A : Type} (a : A) : quiet (mret a).
Proof. intros w. by exists w, a. Qed.

Lemma quiet_bind {A B : Type} (m : M A) (f : A -> M B) :
  quiet m -> (forall a, quiet (f a)) -> quiet (m ≫= f).
Proof.
  intros Hm Hf w. destruct (Hm w) as (w1 & a & Hma & Hh1 & Ht1).
  destruct (Hf a w1) as (w2 & b & Hfb & Hh2 & Ht2).
  exists w2, b. erewrite bind_ok by exact Hma. split; [done |]. split; congruence.
Qed.

Lemma quiet_get_heap : quiet get_heap.
Proof. intros w. by exists w, (heap w). Qed.

Lemma quiet_random_token : quiet random_token.
Proof. intros w. eexists _, _. split; [reflexivity |]. done. Qed.

Lemma quiet_getFromContext l key d : quiet (getFromContext (VRef l) key d).
Proof. apply quiet_bind; [apply quiet_get_heap |]. intros h. apply quiet_ret. Qed.

Lemma object_guard v : truthy v && typeof_object v = true -> exists l, v = VRef l.
Proof. destruct v; simpl; rewrite ?andb_false_r; try done. eauto. Qed.

(** [getResultKey] always returns; it reads the heap, may draw one random
    token, and writes neither the heap nor the trace. *)
Lemma getResultKey_quiet item result : quiet (getResultKey item result).
Proof.
  unfold getResultKey. apply quiet_bind.
  - destruct (truthy result && typeof_object result) eqn:Hres; [| apply quiet_ret].
    destruct (object_guard _ Hres) as [l ->].
    apply quiet_bind; [apply quiet_getFromContext |]. intros k1.
    destruct (truthy k1); [apply quiet_ret |].
    apply quiet_bind; [apply quiet_getFromContext |]. intros k2.
    destruct (truthy k2); [apply quiet_ret |].
    apply quiet_bind; [apply quiet_get_heap |]. intros h.
    destruct (truthy (VRef l) && has_prop h (VRef l) "item"
              && truthy (get_prop h (VRef l) "item")
              && typeof_object (get_prop h (VRef l) "item")) eqn:Hitem; [| apply quiet_ret].
    apply andb_prop in Hitem as [Hitem Hobj]. apply andb_prop in Hitem as [_ Htruthy].
    destruct (object_guard (get_prop h (VRef l) "item")) as [l' ->];
      [by rewrite Htruthy, Hobj | apply quiet_getFromContext].
  - intros fromResult. destruct (truthy fromResult).
    { apply quiet_bind; [apply quiet_get_heap |]. intros h. apply quiet_ret. }
    apply quiet_bind.
    + destruct (truthy item && typeof_object item) eqn:Hitem; [| apply quiet_ret].
      destruct (object_guard _ Hitem) as [l ->].
      apply quiet_bind; [apply quiet_getFromContext |]. intros i1.
      destruct (truthy i1); [apply quiet_ret | apply quiet_getFromContext].
    + intros fromItem. destruct (truthy fromItem); [| apply quiet_random_token].
      apply quiet_bind; [apply quiet_get_heap |]. intros h. apply quiet_ret.
Qed.

(** ** Chunking *)

Lemma js_slice_inside {A : Type} (array : list A) (i c : Z) :
  0 <= i < Z.of_nat (length array) -> 1 <= c ->
  js_slice array i (Z.min (i + c) (Z.of_nat (length array)))
  ++ drop (Z.to_nat (i + c)) array
  = drop (Z.to_nat i) array.
Proof.
  intros Hi Hc. unfold js_slice.
  replace (i <? 0) with false by (symmetry; apply Z.ltb_ge; lia).
  replace (Z.min (i + c) (Z.of_nat (length array)) <? 0) with false
    by (symmetry; apply Z.ltb_ge; lia).
  replace (Z.min i (Z.of_nat (length array))) with i by lia.
  replace (Z.min (Z.min (i + c) (Z.of_nat (length array))) (Z.of_nat (length array)))
    with (Z.min (i + c) (Z.of_nat (length array))) by lia.
  destruct (Z.le_gt_cases (i + c) (Z.of_nat (length array))) as [Hin | Hout].
  - replace (Z.min (i + c) (Z.of_nat (length array)) - i) with c by lia.
    replace (Z.to_nat (i + c)) with (Z.to_nat i + Z.to_nat c)%nat by lia.
    rewrite <- drop_drop. apply take_drop.
  - rewrite (drop_ge array (Z.to_nat (i + c))) by lia.
    rewrite app_nil_r. apply take_ge. rewrite length_drop. lia.
Qed.

(** A loop that advances by at least one ends, and its chunks put end to
    end are the rest of the array. *)
Lemma chunk_loop_concat {A : Type} (fuel : nat) (array : list A) (i c : Z) :
  1 <= c -> 0 <= i ->
  (length array - Z.to_nat i <= fuel)%nat ->
  exists chunks,
    chunk_loop fuel array i c = Some chunks
    /\ concat chunks = drop (Z.to_nat i) array.
Proof.
  intros Hc. revert i. induction fuel as [|fuel IH]; intros i Hi Hfuel.
  - simpl. destruct (i <? Z.of_nat (length array)) eqn:Hlt.
    + apply Z.ltb_lt in Hlt. lia.
    + apply Z.ltb_ge in Hlt. exists []. split; [done |]. simpl.
      symmetry. apply drop_ge. lia.
  - simpl. destruct (i <? Z.of_nat (length array)) eqn:Hlt.
    + apply Z.ltb_lt in Hlt.
      destruct (IH (i + c)) as (chunks & -> & Hconcat); [lia | lia |].
      eexists. split; [reflexivity |]. simpl. rewrite Hconcat.
      by apply js_slice_inside.
    + apply Z.ltb_ge in Hlt. exists []. split; [done |]. simpl.
      symmetry. apply drop_ge. lia.
Qed.

Lemma chunkArray_concat {A : Type} (array : list A) (c : Z) :
  1 <= c -> exists chunks, chunkArray array c = Some chunks /\ concat chunks = array.
Proof.
  intros Hc. destruct (chunk_loop_concat (length array) array 0 c) as (chunks & H1 & H2);
    [done | done | simpl; lia |].
  exists chunks. split; [done |]. by rewrite H2.
Qed.

(** The chunk size of the synchronous processor, [min(items.length, 100)],
    always lets the loop end. *)
Lemma chunkArray_sync {A : Type} (items : list A) :
  exists chunks,
    chunkArray items (Z.min (Z.of_nat (length items)) 100) = Some chunks
    /\ concat chunks = items.
Proof.
  destruct items as [|x items].
  - exists []. by split.
  - apply chunkArray_concat. simpl length. lia.
Qed.

(** With a size below one and a non-empty array the loop never exits. *)
Lemma chunkArray_stuck {A : Type} (x : A) (array : list A) (c : Z) :
  c <= 0 -> chunkArray (x :: array) c = None.
Proof.
  intros Hc. unfold chunkArray.
  assert (H : forall fuel i, i <= 0 -> chunk_loop fuel (x :: array) i c = None).
  { induction fuel as [|fuel IH]; intros i Hi; cbn [chunk_loop].
    - destruct (i <? Z.of_nat (length (x :: array))) eqn:Hlt; [done |].
      apply Z.ltb_ge in Hlt. simpl in Hlt. lia.
    - destruct (i <? Z.of_nat (length (x :: array))) eqn:Hlt.
      + by rewrite IH by lia.
      + apply Z.ltb_ge in Hlt. simpl in Hlt. lia. }
  by apply H.
Qed.

Lemma foldM_concat {A B : Type} (f : B -> A -> M B) (chunks : list (list A)) acc w :
  foldM (fun acc chunk => foldM f acc chunk) acc chunks w = foldM f acc (concat chunks) w.
Proof.
  assert (Happ : forall (l k : list A) acc w,
             foldM f acc (l ++ k) w = (acc' ← foldM f acc l; foldM f acc' k) w).
  { induction l as [|x l IH]; intros k acc0 w0; simpl; [done |].
    unfold mbind, M_bind. destruct (f acc0 x w0) as [w1 [a| |]]; [|done|done].
    apply IH. }
  revert acc w. induction chunks as [|chunk chunks IH]; intros acc w; simpl; [done |].
  rewrite Happ. unfold mbind, M_bind.
  destruct (foldM f acc chunk w) as [w1 [a| |]]; [|done|done]. apply IH.
Qed.

(** ** Batch processors *)

Lemma failure_marker_eq e w :
  failure_marker e w = (marked e w, Ok (VRef (length (heap w)))).
Proof. reflexivity. Qed.

(** The marker is a fresh [{ processed: false, error: <message> }]. *)
Lemma marked_holds_marker e w :
  heap (marked e w) !! length (heap w)
  = Some (plain (marker_fields (error_text (heap w) e))).
Proof. apply lookup_snoc. Qed.

(** One item of the synchronous processor never throws: it stores a
    result or a marker. *)
Lemma batch_item_outcome processor results item w :
  terminates processor ->
  exists w' kv,
    sync_item_outcome processor item w w' kv
    /\ batch_item processor results item w = (w', Ok (<[kv.1 := kv.2]> results)).
Proof.
  intros Hterm. unfold batch_item.
  assert (Hcatch : forall w1 e,
             exists w2 key,
               getResultKey item VUndef w1 = (w2, Ok key)
               /\ (key ← getResultKey item VUndef;
                   marker ← failure_marker e;
                   mret (<[key := marker]> results)) w1
                  = (marked e w2, Ok (<[key := VRef (length (heap w2))]> results))).
  { intros w1 e. destruct (getResultKey_quiet item VUndef w1) as (w2 & key & Hk & _).
    exists w2, key. split; [done |].
    erewrite bind_ok by exact Hk. by erewrite bind_ok by apply failure_marker_eq. }
  destruct (processor item w) as [w1 [first|e|]] eqn:H1.
  - destruct (getResultKey_quiet item first w1) as (w2 & key & Hk & _).
    destruct (processor item w2) as [w3 [second|e|]] eqn:H2.
    + exists w3, (key, second). split; [by econstructor |].
      apply try_ok. erewrite bind_ok by exact H1. erewrite bind_ok by exact Hk.
      by erewrite bind_ok by exact H2.
    + destruct (Hcatch w3 e) as (w4 & key' & Hk' & Hrun).
      exists (marked e w4), (key', VRef (length (heap w4))). split.
      * eapply sync_item_marked; [| exact Hk']. right. by exists w1, first, w2, key.
      * erewrite try_throw; [exact Hrun |].
        erewrite bind_ok by exact H1. erewrite bind_ok by exact Hk.
        by erewrite bind_throw by exact H2.
    + exfalso. apply (Hterm item w2). by rewrite H2.
  - destruct (Hcatch w1 e) as (w2 & key & Hk & Hrun).
    exists (marked e w2), (key, VRef (length (heap w2))). split.
    + eapply sync_item_marked; [| exact Hk]. by left.
    + erewrite try_throw; [exact Hrun |]. by erewrite bind_throw by exact H1.
  - exfalso. apply (Hterm item w). by rewrite H1.
Qed.

Lemma batch_fold_outcome processor items :
  terminates processor ->
  forall results w,
    exists w' kvs,
      run_items (sync_item_outcome processor) items w w' kvs
      /\ foldM (batch_item processor) results items w
         = (w', Ok (foldl (fun results kv => <[kv.1 := kv.2]> results) results kvs)).
Proof.
  intros Hterm. induction items as [|item items IH]; intros results w.
  - exists w, []. split; [constructor | done].
  - destruct (batch_item_outcome processor results item w Hterm) as (w1 & kv & Hout & Hrun).
    destruct (IH (<[kv.1 := kv.2]> results) w1) as (w' & kvs & Houts & Hfold).
    exists w', (kv :: kvs). split; [by econstructor |].
    simpl. by erewrite bind_ok by exact Hrun.
Qed.


(** The synchronous processor always gets to the collector. *)
Lemma batch_results_outcome processor items w :
  terminates processor ->
  exists w' kvs,
    run_items (sync_item_outcome processor) items w w' kvs
    /\ batch_results processor items w = (w', Ok (store_all kvs)).
Proof.
  intros Hterm. unfold batch_results.
  destruct (chunkArray_sync items) as (chunks & -> & Hconcat).
  destruct (batch_fold_outcome processor items Hterm ∅ w) as (w' & kvs & Houts & Hfold).
  exists w', kvs. split; [done |]. by rewrite foldM_concat, Hconcat.
Qed.

(** *** The keyed record and its values *)






(** *** The asynchronous processor *)




(** With a bound below one and at least one item, the asynchronous
    processor never gets past its chunking loop. *)
Lemma executeParallel_hangs {A B : Type} (x : A) (items : list A) (f : A -> M B) n w :
  n <= 0 -> executeParallel (x :: items) f (Finite n) w = (w, Hang).
Proof. intros Hn. unfold executeParallel. by rewrite chunkArray_stuck. Qed.








(** ** The synchronous processor runs the node twice per item *)

Lemma traced_trace f v w :
  silent f -> trace (traced f v w).1 = EvInvoke v :: trace w.
Proof. intros Hf. unfold traced. by rewrite Hf. Qed.




(** When the first invocation throws there is no second one. *)
Lemma batch_item_first_throw f item results w w1 e :
  silent f ->
  traced f item w = (w1, Throw e) ->
  exists w2 key,
    getResultKey item VUndef w1 = (w2, Ok key)
    /\ batch_item (traced f) results item w
       = (marked e w2, Ok (<[key := VRef (length (heap w2))]> results))
    /\ invocations (marked e w2) = (invocations w + 1)%nat.
Proof.
  intros Hsilent H1.
  destruct (getResultKey_quiet item VUndef w1) as (w2 & key & Hk & _ & Htr).
  exists w2, key. split; [done |]. split.
  - unfold batch_item. erewrite try_throw by (by erewrite bind_throw by exact H1).
    erewrite bind_ok by exact Hk. by erewrite bind_ok by apply failure_marker_eq.
  - pose proof (traced_trace f item w Hsilent) as T1. rewrite H1 in T1. simpl in T1.
    unfold invocations, marked. simpl. rewrite Htr, T1. simpl. lia.
Qed.

(** The key and the stored value may come from different invocations: a
    node that returns [{ key: <number of the call> }] has the second
    call's record [{ key: 2 }] stored under the first call's key "1". *)
Lemma batch_key_and_value_differ :
  let run := batch_item (traced numbered) ∅ (VNum 0) world0 in
  exists stored,
    run.2 = Ok {[ "1" := stored ]}
    /\ get_prop (heap run.1) stored "key" = VNum 2
    /\ invocations run.1 = 2%nat.
Proof. exists (VRef 1%nat). vm_compute. repeat split. Qed.

(** * Further properties

    Properties of the helpers, the pipelines and the executors, beyond the
    numbered claims. *)

(** ** [deepCopy] *)

Lemma json_ind_nested (P : json -> Prop) :
  P JNull ->
  (forall b, P (JBool b)) ->
  (forall n, P (JNum n)) ->
  (forall s, P (JStr s)) ->
  (forall items, Forall P items -> P (JArr items)) ->
  (forall members, Forall (fun kx : string * json => P kx.2) members -> P (JObj members)) ->
  forall j, P j.
Proof.
  intros Hnull Hbool Hnum Hstr Harr Hobj. fix IH 1. intros [ |b|n|s|items|members].
  - exact Hnull.
  - apply Hbool.
  - apply Hnum.
  - apply Hstr.
  - apply Harr. induction items as [|j items IHitems]; constructor; [apply IH | exact IHitems].
  - apply Hobj. induction members as [|[k j] members IHmembers]; constructor;
      [apply IH | exact IHmembers].
Qed.

Lemma within_mono lo hi hi' v : (hi <= hi')%nat -> within lo hi v -> within lo hi' v.
Proof. destruct v; simpl; try done. lia. Qed.

Lemma obj_within_mono lo hi hi' o : (hi <= hi')%nat -> obj_within lo hi o -> obj_within lo hi' o.
Proof.
  intros Hle [Helems Hprops]. split.
  - destruct (o_elems o) as [es|]; [| done]. simpl in *.
    eapply Forall_impl; [exact Helems |]. intros v. by apply within_mono.
  - intros k v Hk. eapply within_mono; [exact Hle |]. by apply (Hprops k v).
Qed.

Lemma mapM_fresh {A B : Type} (f : A -> M B) (good : nat -> nat -> B -> Prop) (l : list A) :
  (forall lo hi hi' b, (hi <= hi')%nat -> good lo hi b -> good lo hi' b) ->
  Forall (fun x => forall w lo, (lo <= length (heap w))%nat ->
            exists ext b,
              f x w = (with_heap (heap w ++ ext) w, Ok b)
              /\ good lo (length (heap w ++ ext)) b
              /\ Forall (obj_within lo (length (heap w ++ ext))) ext) l ->
  forall w lo, (lo <= length (heap w))%nat ->
    exists ext bs,
      mapM f l w = (with_heap (heap w ++ ext) w, Ok bs)
      /\ Forall (good lo (length (heap w ++ ext))) bs
      /\ Forall (obj_within lo (length (heap w ++ ext))) ext.
Proof.
  intros Hmono. induction 1 as [|x l Hx _ IH]; intros w lo Hlo.
  - exists [], []. simpl. rewrite app_nil_r, with_heap_id. by repeat split.
  - destruct (Hx w lo Hlo) as (ext1 & b & Hrun1 & Hb & Hext1).
    destruct (IH (with_heap (heap w ++ ext1) w) lo) as (ext2 & bs & Hrun2 & Hbs & Hext2).
    { cbn [heap with_heap]. rewrite length_app. lia. }
    cbn [heap with_heap] in *. rewrite <- app_assoc in *.
    exists (ext1 ++ ext2), (b :: bs). split; [| split].
    + simpl. erewrite bind_ok by exact Hrun1. by erewrite bind_ok by exact Hrun2.
    + constructor; [| done]. eapply Hmono; [| exact Hb]. rewrite !length_app. lia.
    + apply Forall_app. split; [| done].
      eapply Forall_impl; [exact Hext1 |]. intros o. apply obj_within_mono.
      rewrite !length_app. lia.
Qed.

(** [JSON.parse] always returns, only adds objects to the heap, and what
    it returns and builds refers to the added objects only. *)
Lemma parse_fresh j :
  forall w lo, (lo <= length (heap w))%nat ->
    exists ext v,
      parse j w = (with_heap (heap w ++ ext) w, Ok v)
      /\ within lo (length (heap w ++ ext)) v
      /\ Forall (obj_within lo (length (heap w ++ ext))) ext.
Proof.
  induction j as [ |b|n|s|items IH|members IH] using json_ind_nested; intros w lo Hlo;
    try (exists []; eexists; simpl; rewrite app_nil_r, with_heap_id; by repeat split).
  - destruct (mapM_fresh parse within items within_mono IH w lo Hlo)
      as (ext & es & Hrun & Hes & Hext).
    exists (ext ++ [array es]), (VRef (length (heap w ++ ext))).
    cbn [parse]. erewrite bind_ok by exact Hrun. rewrite alloc_eq.
    cbn [heap with_heap]. rewrite <- app_assoc. split; [done |].
    assert (Hlen : (length (heap w ++ ext) < length (heap w ++ ext ++ [array es]))%nat).
    { rewrite !length_app. simpl. lia. }
    split; [simpl; rewrite !length_app in *; lia |].
    apply Forall_app. split.
    + eapply Forall_impl; [exact Hext |]. intros o. apply obj_within_mono. lia.
    + constructor; [| done]. split; [| done]. simpl.
      eapply Forall_impl; [exact Hes |]. intros v. apply within_mono. lia.
  - destruct (mapM_fresh (fun kx : string * json => v ← parse kx.2; mret (kx.1, v))
                (fun lo hi (kv : string * val) => within lo hi kv.2) members) with (w := w) (lo := lo)
      as (ext & fs & Hrun & Hfs & Hext).
    { intros ? ? ? ? ?. by apply within_mono. }
    { eapply Forall_impl; [exact IH |]. intros [k j] Hj w0 lo0 Hlo0.
      destruct (Hj w0 lo0 Hlo0) as (ext0 & v & Hrun0 & Hv & Hext0).
      exists ext0, (k, v). split; [| done]. simpl. by erewrite bind_ok by exact Hrun0. }
    { done. }
    exists (ext ++ [plain (list_to_map fs)]), (VRef (length (heap w ++ ext))).
    cbn [parse]. erewrite bind_ok by exact Hrun. rewrite alloc_eq.
    cbn [heap with_heap]. rewrite <- app_assoc. split; [done |].
    assert (Hlen : (length (heap w ++ ext) < length (heap w ++ ext ++ [plain (list_to_map fs)]))%nat).
    { rewrite !length_app. simpl. lia. }
    split; [simpl; rewrite !length_app in *; lia |].
    apply Forall_app. split.
    + eapply Forall_impl; [exact Hext |]. intros o. apply obj_within_mono. lia.
    + constructor; [| done]. split; [done |]. simpl.
      intros k v Hk. apply elem_of_list_to_map_2 in Hk.
      eapply within_mono; [| exact (proj1 (Forall_forall _ _) Hfs (k, v) Hk)]. lia.
Qed.

(** X1. [deepCopy] never loops and never writes to an existing object:
    it only appends objects to the heap, and appends none when it throws.
    The copy it returns, and every object it built, refers to appended
    objects only: nothing mutable is shared with what was there before. *)
Theorem deepCopy_shares_nothing (v : val) (w : world) :
  exists ext r,
    deepCopy v w = (with_heap (heap w ++ ext) w, r)
    /\ match r with
       | Ok copy =>
           within (length (heap w)) (length (heap w ++ ext)) copy
           /\ Forall (obj_within (length (heap w)) (length (heap w ++ ext))) ext
       | Throw _ => ext = []
       | Hang => False
       end.
Proof.
  unfold deepCopy.
  destruct (stringify (S (length (heap w))) (heap w) v) as [[j|]|].
  - destruct (parse_fresh j w (length (heap w)) (le_n _)) as (ext & copy & Hrun & Hcopy & Hext).
    exists ext, (Ok copy). by rewrite Hrun.
  - exists [], (Throw (JsError "SyntaxError: JSON.parse")).
    by rewrite app_nil_r, with_heap_id.
  - exists [], (Throw (JsError "TypeError: cyclic object value")).
    by rewrite app_nil_r, with_heap_id.
Qed.

Lemma stringify_cyclic (S : loc -> Prop) h :
  (forall a, S a -> exists b, S b /\ refers h a b) ->
  forall fuel l, S l -> stringify fuel h (VRef l) = None.
Proof.
  intros Hclosed. induction fuel as [|fuel IH]; intros l Hl; [done |].
  destruct (Hclosed l Hl) as (b & Hb & Hrefers). unfold refers in Hrefers.
  cbn [stringify]. destruct (h !! l) as [[[es|] fs]|]; [| | done].
  - replace (mapM (fun e => default JNull <$> stringify fuel h e) es) with (@None (list json));
      [done |].
    symmetry. apply mapM_None. apply Exists_exists. exists (VRef b). split; [done |].
    by rewrite IH.
  - destruct Hrefers as [k Hk].
    replace (mapM (fun kx : string * val => fmap (M:=option) (pair kx.1) <$> stringify fuel h kx.2)
                  (map_to_list fs)) with (@None (list (option (string * json)))); [done |].
    symmetry. apply mapM_None. apply Exists_exists. exists (k, VRef b).
    split; [by apply elem_of_map_to_list |]. simpl. by rewrite IH.
Qed.

(** X2. A structure that contains a cycle cannot be copied: when the
    object at [l] belongs to a set of objects each of which holds a
    reference to another of the set, [deepCopy] throws a TypeError and
    leaves the world as it was. *)
Theorem deepCopy_rejects_cycles (S : loc -> Prop) (l : loc) (w : world) :
  (forall a, S a -> exists b, S b /\ refers (heap w) a b) ->
  S l ->
  deepCopy (VRef l) w = (w, Throw (JsError "TypeError: cyclic object value")).
Proof.
  intros Hclosed Hl. unfold deepCopy.
  by rewrite (stringify_cyclic S (heap w) Hclosed).
Qed.

Lemma deepCopy_rejects_cycles_witness :
  deepCopy (VRef O) self_world
  = (self_world, Throw (JsError "TypeError: cyclic object value")).
Proof.
  apply (deepCopy_rejects_cycles (fun a => a = O)).
  - intros a ->. exists O. split; [reflexivity |]. exists "self". reflexivity.
  - reflexivity.
Defined.

Lemma get_prop_defined_fields fs key :
  default VUndef (defined_fields fs !! key) = default VUndef (fs !! key).
Proof.
  unfold defined_fields. destruct (fs !! key) as [v|] eqn:Hv.
  - destruct (decide (v = VUndef)) as [-> | Hdef].
    + simpl. rewrite (proj2 (map_lookup_filter_None _ fs key)); [done |].
      right. intros v' Hv'. simpl. intros Hne. rewrite Hv in Hv'. by simplify_eq.
    + by rewrite (map_lookup_filter_Some_2 _ fs key v).
  - rewrite (proj2 (map_lookup_filter_None _ fs key)); [done |]. by left.
Qed.

(** X3. The copy of a record of primitive properties is another object
    on which every property reads as on the original, which stays as it
    was; only a property present with the value [undefined] is absent
    from the copy (where it still reads as [undefined]). *)
Theorem deepCopy_flat_reads (l : loc) (fs : gmap string val) (w : world) :
  heap w !! l = Some (plain fs) ->
  map_Forall (fun _ v => primitive v) fs ->
  exists w' copy,
    deepCopy (VRef l) w = (w', Ok copy)
    /\ copy <> VRef l
    /\ heap w' !! l = Some (plain fs)
    /\ (forall key, get_prop (heap w') copy key = get_prop (heap w) (VRef l) key)
    /\ (forall key, has_prop (heap w') copy key = true
                    <-> exists v, fs !! key = Some v /\ v <> VUndef).
Proof.
  intros Hl Hflat. pose proof (lookup_lt_Some _ _ _ Hl) as Hlt.
  eexists _, _. split; [by apply deepCopy_flat |].
  split; [intros [= ?]; lia |]. cbn [heap with_heap].
  split; [by rewrite lookup_app_l |]. split.
  - intros key. simpl. rewrite lookup_snoc, Hl. simpl. apply get_prop_defined_fields.
  - intros key. simpl. rewrite lookup_snoc. simpl.
    rewrite bool_decide_eq_true. unfold defined_fields. split.
    + intros [v Hv]. apply map_lookup_filter_Some in Hv as [Hv Hdef]. by exists v.
    + intros (v & Hv & Hdef). exists v. by apply map_lookup_filter_Some.
Qed.

Lemma deepCopy_flat_reads_witness :
  exists w' copy,
    deepCopy (VRef O) (World [plain {[ "x" := VNum 1 ]}] (fun _ => "t") O []) = (w', Ok copy)
    /\ copy <> VRef O
    /\ get_prop (heap w') copy "x" = VNum 1.
Proof.
  destruct (deepCopy_flat_reads O {[ "x" := VNum 1 ]}
              (World [plain {[ "x" := VNum 1 ]}] (fun _ => "t") O []))
    as (w' & copy & Hrun & Hne & _ & Hreads & _).
  - reflexivity.
  - intros k v Hk. apply lookup_singleton_Some in Hk as [_ <-]. exact I.
  - exists w', copy. split; [exact Hrun |]. split; [exact Hne |].
    rewrite Hreads. reflexivity.
Defined.

(** ** Context helpers *)





(** ** Chunks and bounded parallelism *)

Lemma js_slice_length_inside {A : Type} (array : list A) (i c : Z) :
  0 <= i < Z.of_nat (length array) -> 1 <= c ->
  Z.of_nat (length (js_slice array i (Z.min (i + c) (Z.of_nat (length array)))))
  = Z.min c (Z.of_nat (length array) - i).
Proof.
  intros Hi Hc. unfold js_slice.
  replace (i <? 0) with false by (symmetry; apply Z.ltb_ge; lia).
  replace (Z.min (i + c) (Z.of_nat (length array)) <? 0) with false
    by (symmetry; apply Z.ltb_ge; lia).
  rewrite length_take, length_drop. lia.
Qed.

Lemma chunk_loop_shape {A : Type} (fuel : nat) (array : list A) (i c : Z) chunks :
  1 <= c -> 0 <= i ->
  chunk_loop fuel array i c = Some chunks ->
  Forall (fun chunk : list A => 1 <= Z.of_nat (length chunk) <= c) chunks
  /\ Z.of_nat (length chunks) = (Z.max 0 (Z.of_nat (length array) - i) + c - 1) / c.
Proof.
  intros Hc. revert i chunks. induction fuel as [|fuel IH]; intros i chunks Hi; simpl.
  - destruct (i <? Z.of_nat (length array)) eqn:Hlt; [done |].
    apply Z.ltb_ge in Hlt. intros [= <-]. split; [done |]. simpl.
    rewrite Z.max_l by lia. symmetry. apply Z.div_small. lia.
  - destruct (i <? Z.of_nat (length array)) eqn:Hlt.
    + apply Z.ltb_lt in Hlt.
      destruct (chunk_loop fuel array (i + c) c) as [rest|] eqn:Hrest; [| done].
      intros [= <-]. destruct (IH (i + c) rest ltac:(lia) Hrest) as [Hsizes Hcount].
      split.
      * constructor; [| done]. rewrite js_slice_length_inside by lia. lia.
      * cbn [length]. rewrite Nat2Z.inj_succ, Hcount.
        rewrite (Z.max_r 0 (Z.of_nat (length array) - i)) by lia.
        replace (Z.of_nat (length array) - i + c - 1)
          with (Z.of_nat (length array) - i - 1 + 1 * c) by lia.
        rewrite Z.div_add by lia.
        destruct (Z.le_gt_cases 0 (Z.of_nat (length array) - (i + c))) as [Hmore | Hlast].
        -- rewrite Z.max_r by lia.
           replace (Z.of_nat (length array) - (i + c) + c - 1)
             with (Z.of_nat (length array) - i - 1) by lia.
           lia.
        -- rewrite Z.max_l by lia.
           rewrite (Z.div_small (0 + c - 1)) by lia.
           rewrite (Z.div_small (Z.of_nat (length array) - i - 1)) by lia. lia.
    + apply Z.ltb_ge in Hlt. intros [= <-]. split; [done |]. simpl.
      rewrite Z.max_l by lia. symmetry. apply Z.div_small. lia.
Qed.

(** X6. With a chunk size of at least one, [chunkArray] ends and cuts the
    array into consecutive chunks: put end to end they are the array, none
    is empty or longer than the size, and there are ceil(length / size) of
    them. *)
Theorem chunkArray_partitions {A : Type} (array : list A) (chunkSize : Z) :
  1 <= chunkSize ->
  exists chunks,
    chunkArray array chunkSize = Some chunks
    /\ concat chunks = array
    /\ Forall (fun chunk : list A => 1 <= Z.of_nat (length chunk) <= chunkSize) chunks
    /\ Z.of_nat (length chunks) = (Z.of_nat (length array) + chunkSize - 1) / chunkSize.
Proof.
  intros Hc. destruct (chunkArray_concat array chunkSize Hc) as (chunks & Hrun & Hconcat).
  exists chunks. split; [done |]. split; [done |].
  destruct (chunk_loop_shape (length array) array 0 chunkSize chunks Hc (Z.le_refl 0) Hrun)
    as [Hsizes Hcount].
  split; [done |]. rewrite Hcount. f_equal. lia.
Qed.

Lemma chunkArray_partitions_witness :
  exists chunks,
    chunkArray [1; 2; 3; 4; 5; 6; 7; 8] 3 = Some chunks
    /\ concat chunks = [1; 2; 3; 4; 5; 6; 7; 8]
    /\ Forall (fun chunk : list Z => 1 <= Z.of_nat (length chunk) <= 3) chunks
    /\ Z.of_nat (length chunks) = (Z.of_nat (length [1; 2; 3; 4; 5; 6; 7; 8]) + 3 - 1) / 3.
Proof. apply (chunkArray_partitions [1; 2; 3; 4; 5; 6; 7; 8] 3). lia. Defined.



(** ** Batch processors: empty input and a bad bound *)

Lemma Object_values_empty : Object_values ∅ = [].
Proof. unfold Object_values. by rewrite map_to_list_empty. Qed.

(** X8. A batch whose selector returns no item calls the collector with
    an empty list and never invokes the per-item node: synchronous and
    asynchronous processor alike, whatever the concurrency bound. *)
Theorem batch_without_items (bp : BatchProcessor) (context : val) (w w0 : world) :
  itemsSelector bp context w = (w0, Ok []) ->
  batch_execute bp context w = resultsCollector bp context [] w0
  /\ async_batch_execute bp context w
     = resultsCollector bp context [] (with_heap (heap w0 ++ [plain ∅]) w0).
Proof.
  intros Hitems. split.
  - unfold batch_execute. erewrite bind_ok by exact Hitems.
    unfold batch_results. simpl. rewrite bind_ret. by rewrite Object_values_empty.
  - unfold async_batch_execute. erewrite bind_ok by exact Hitems.
    rewrite try_rethrow. unfold async_batch_results.
    assert (Hpar : executeParallel [] (async_batch_item (processor bp)) (concurrency bp) w0
                   = (w0, Ok [])).
    { unfold executeParallel. by destruct (concurrency bp). }
    erewrite bind_ok.
    2: { erewrite bind_ok by exact Hpar. unfold key_results.
         erewrite bind_ok by (erewrite bind_ok by apply alloc_eq; reflexivity).
         rewrite bind_get_heap. cbn [heap with_heap]. rewrite spread_fresh. reflexivity. }
    by rewrite Object_values_empty.
Qed.

Lemma batch_without_items_witness :
  batch_execute (createBatchProcessor pass_through) VNull world0
  = default_resultsCollector VNull [] world0.
Proof.
  apply (batch_without_items (createBatchProcessor pass_through) VNull world0 world0).
  reflexivity.
Defined.

(** X9. With a concurrency bound below one and at least one item, the
    asynchronous processor never returns and never invokes the per-item
    node: its chunking loop does not advance. The synchronous processor,
    which does not read the bound, reaches its collector. *)
Theorem async_batch_bad_bound_hangs (bp : BatchProcessor) (context item : val)
    (items : list val) (n : Z) (w w0 : world) :
  itemsSelector bp context w = (w0, Ok (item :: items)) ->
  concurrency bp = Finite n ->
  n <= 0 ->
  terminates (processor bp) ->
  async_batch_execute bp context w = (w0, Hang)
  /\ exists w' results,
       batch_execute bp context w = resultsCollector bp context results w'.
Proof.
  intros Hitems Hbound Hn Hterm. split.
  - unfold async_batch_execute. erewrite bind_ok by exact Hitems.
    rewrite try_rethrow. unfold async_batch_results. rewrite Hbound.
    erewrite bind_hang; [reflexivity |].
    erewrite bind_hang; [reflexivity |]. by apply executeParallel_hangs.
  - destruct (batch_results_outcome (processor bp) (item :: items) w0 Hterm)
      as (w' & kvs & _ & Hres).
    exists w', (Object_values (store_all kvs)).
    unfold batch_execute. erewrite bind_ok by exact Hitems.
    by erewrite bind_ok by exact Hres.
Qed.

Lemma async_batch_bad_bound_hangs_witness :
  async_batch_execute (withConcurrency (Finite 0) plain_batch) VNull world0 = (world0, Hang)
  /\ exists w' results,
       batch_execute (withConcurrency (Finite 0) plain_batch) VNull world0
       = resultsCollector (withConcurrency (Finite 0) plain_batch) VNull results w'.
Proof.
  apply (async_batch_bad_bound_hangs (withConcurrency (Finite 0) plain_batch) VNull
           (VNum 1) [VNum 2] 0 world0 world0).
  - reflexivity.
  - reflexivity.
  - lia.
  - intros v w. discriminate.
Defined.

(** ** Result keys *)

(** X10. [getResultKey] returns a key for every item and result, objects
    or not: its [in] tests are guarded, so it never throws; it writes
    neither the heap nor the trace. *)
Theorem getResultKey_never_throws (item result : val) (w : world) :
  exists w' key,
    getResultKey item result w = (w', Ok key)
    /\ heap w' = heap w
    /\ trace w' = trace w.
Proof. apply getResultKey_quiet. Qed.

(** X11. The key is taken from the first truthy candidate. A result
    record with a truthy [key] decides it. Without a result, an item
    record with a truthy [id] decides it and no random token is drawn. An
    item whose [id] and [key] are missing or falsy (0, the empty string)
    gets the next random token instead. *)
Theorem getResultKey_candidates (li lr : loc) (fi fr : gmap string val) (item : val)
    (k : val) (w : world) :
  heap w !! li = Some (plain fi) ->
  heap w !! lr = Some (plain fr) ->
  (fr !! "key" = Some k -> truthy k = true ->
     getResultKey item (VRef lr) w = (w, Ok (js_String (heap w) k)))
  /\ (fi !! "id" = Some k -> truthy k = true ->
        getResultKey (VRef li) VUndef w = (w, Ok (js_String (heap w) k)))
  /\ (truthy (default VUndef (fi !! "id")) = false ->
      truthy (default VUndef (fi !! "key")) = false ->
        getResultKey (VRef li) VUndef w
        = (World (heap w) (rand_seq w) (S (rand_ix w)) (trace w),
           Ok (rand_seq w (rand_ix w)))).
Proof.
  intros Hi Hr.
  assert (Hget : forall l fs key, heap w !! l = Some (plain fs) ->
             getFromContext (VRef l) key VUndef w = (w, Ok (default VUndef (fs !! key)))).
  { intros l fs key Hl. unfold getFromContext. rewrite bind_get_heap. simpl. rewrite Hl.
    simpl. by destruct (fs !! key). }
  split; [| split].
  - intros Hk Htruthy. unfold getResultKey. cbn [truthy typeof_object andb].
    erewrite bind_ok.
    2: { erewrite bind_ok by (by apply (Hget lr fr)). rewrite Hk.
         change (default VUndef (Some k)) with k. rewrite Htruthy. reflexivity. }
    by rewrite Htruthy.
  - intros Hk Htruthy. unfold getResultKey. cbn [truthy typeof_object andb].
    rewrite bind_ret. cbn [truthy].
    erewrite bind_ok.
    2: { erewrite bind_ok by (by apply (Hget li fi)). rewrite Hk.
         change (default VUndef (Some k)) with k. rewrite Htruthy. reflexivity. }
    by rewrite Htruthy.
  - intros Hid Hkey. unfold getResultKey. cbn [truthy typeof_object andb].
    rewrite bind_ret. cbn [truthy].
    erewrite bind_ok.
    2: { erewrite bind_ok by (by apply (Hget li fi)). rewrite Hid.
         by apply (Hget li fi). }
    by rewrite Hkey.
Qed.

Lemma getResultKey_candidates_witness :
  let w := World [plain {[ "id" := VNum 0 ]}; plain {[ "key" := VStr "k" ]}]
             (fun _ => "t") O [] in
  getResultKey (VRef O) VUndef w
  = (World (heap w) (rand_seq w) (S (rand_ix w)) (trace w), Ok (rand_seq w (rand_ix w))).
Proof.
  intros w.
  destruct (getResultKey_candidates O 1%nat {[ "id" := VNum 0 ]} {[ "key" := VStr "k" ]}
              VNull (VStr "k") w eq_refl eq_refl) as (_ & _ & Hrandom).
  apply Hrandom; reflexivity.
Defined.

(** ** Retry: success, no attempt, waits *)

Lemma retry_rounds_succeeds execute shouldRetry onRetry j a w wj :
  retried execute shouldRetry onRetry j a w wj ->
  forall rounds maxA w' r,
    (j < rounds)%nat ->
    maxA = a + Z.of_nat rounds ->
    execute wj = (w', Ok r) ->
    retry_rounds rounds a execute maxA shouldRetry onRetry w = (w', Ok r).
Proof.
  induction 1 as [a w | k a w wa ea wb va wc w0 Hex Hsr Hv Hon Hrest IH];
    intros rounds maxA w' r Hlt HmaxA Hok;
    (destruct rounds as [|rounds]; [lia |]); simpl.
  - by erewrite try_ok.
  - erewrite try_throw by eassumption.
    rewrite bind_get_heap. erewrite bind_ok by eassumption.
    rewrite Hv. simpl.
    replace (maxA - 1 <=? a) with false by (symmetry; apply Z.leb_gt; lia).
    erewrite bind_ok by eassumption.
    eapply IH; [lia | lia | eassumption].
Qed.

(** X12. A retry-wrapped execute with [k] attempts whose first [j < k]
    attempts fail and are retried, and whose next attempt returns,
    returns that attempt's value: the body has then run [j + 1] times and
    no further attempt is made. Sync and async alike. *)
Theorem retry_returns_first_success
    (async : bool) (n : Node) (policy : RetryPolicy) (p : val) (k j : nat)
    (w wj w' : world) (r : val) :
  maxAttempts policy = Z.of_nat k ->
  (j < k)%nat ->
  retried (executeFn n p) (policy_predicate policy) (policy_onRetry async policy) j 0 w wj ->
  executeFn n p wj = (w', Ok r) ->
  retry_wrapped async n policy p w = (w', Ok r).
Proof.
  intros Hk Hlt Hretried Hok.
  rewrite retry_wrapped_rounds, Hk, Nat2Z.id.
  eapply retry_rounds_succeeds; eauto; lia.
Qed.

Lemma retry_returns_first_success_witness :
  retry_wrapped true (withExecuteLogic fail_once createNode) two_attempts (VNum 1) world0
  = (with_event (EvInvoke (VNum 1)) after_first_failure, Ok (VStr "done")).
Proof.
  apply (retry_returns_first_success true (withExecuteLogic fail_once createNode)
           two_attempts (VNum 1) 2 1 world0 after_first_failure).
  - reflexivity.
  - lia.
  - apply (retried_more _ _ _ O 0 world0 (with_event (EvInvoke (VNum 1)) world0)
             (JsError "first call") (with_event (EvInvoke (VNum 1)) world0) (VBool true)
             after_first_failure); try reflexivity.
    apply retried_none.
  - reflexivity.
Defined.

(** X13. A policy with [maxAttempts] of zero or less makes the node fail
    without running its execute function: once the copy and prepare have
    returned, the node throws "Exhausted all retry attempts" in the very
    world prepare left. Sync and async alike. *)
Theorem node_without_attempts_fails (n : Node) (policy : RetryPolicy) (context : val)
    (w w1 w2 wa : world) (copy p pa : val) :
  retryPolicy n = Some policy ->
  maxAttempts policy <= 0 ->
  (deepCopy context w = (w1, Ok copy) -> prepareFn n copy w1 = (w2, Ok p) ->
     node_execute n context w = (w2, Throw RetryExhausted))
  /\ (prepareFn n context w = (wa, Ok pa) ->
        async_node_execute n context w = (wa, Throw RetryExhausted)).
Proof.
  intros Hpolicy Hmax. split.
  - intros Hcopy Hprep. eapply node_execute_retry_error; eauto.
    by apply retry_wrapped_no_attempt.
  - intros Hprep. eapply async_node_execute_retry_error; eauto.
    by apply retry_wrapped_no_attempt.
Qed.

Lemma node_without_attempts_fails_witness :
  node_execute (withRetry no_attempts createNode) (VNum 1) world0
  = (world0, Throw RetryExhausted).
Proof.
  refine (proj1 (node_without_attempts_fails (withRetry no_attempts createNode) no_attempts
                   (VNum 1) world0 world0 world0 world0 (VNum 1) (VNum 1) (VNum 1) _ _) _ _).
  - reflexivity.
  - unfold no_attempts. simpl. lia.
  - reflexivity.
  - reflexivity.
Defined.



(** ** Nodes: what execute returns and throws *)

Lemma bind_inv_ok {A B : Type} (m : M A) (f : A -> M B) w w' b :
  (m ≫= f) w = (w', Ok b) -> exists w1 a, m w = (w1, Ok a) /\ f a w1 = (w', Ok b).
Proof.
  unfold mbind, M_bind. destruct (m w) as [w1 [a| |]]; [| done | done].
  intros H. by exists w1, a.
Qed.

(** X15. When a node's [execute] returns, what it returns is the very
    context object it was called with, not a copy: synchronous and
    asynchronous nodes alike. *)
Theorem node_returns_its_context (n : Node) (context r : val) (w w' : world) :
  (node_execute n context w = (w', Ok r) -> r = context)
  /\ (async_node_execute n context w = (w', Ok r) -> r = context).
Proof.
  split.
  - unfold node_execute. rewrite try_rethrow. intros H.
    apply bind_inv_ok in H as (w1 & copy & _ & H).
    apply bind_inv_ok in H as (w2 & p & _ & H).
    apply bind_inv_ok in H as (w3 & e & _ & H).
    apply bind_inv_ok in H as (w4 & outcome & _ & H).
    rewrite bind_get_heap in H.
    apply bind_inv_ok in H as (w5 & [] & _ & H).
    apply bind_inv_ok in H as (w6 & [] & _ & H).
    by injection H as _ <-.
  - unfold async_node_execute. rewrite try_rethrow. intros H.
    apply bind_inv_ok in H as (w2 & p & _ & H).
    apply bind_inv_ok in H as (w3 & e & _ & H).
    apply bind_inv_ok in H as (w4 & outcome & _ & H).
    apply bind_inv_ok in H as (w6 & [] & _ & H).
    by injection H as _ <-.
Qed.

Lemma node_returns_its_context_witness :
  exists w' r, node_execute createNode (VNum 1) world0 = (w', Ok r) /\ r = VNum 1.
Proof.
  exists world0, (VNum 1). split; [reflexivity |].
  apply (proj1 (node_returns_its_context createNode (VNum 1) (VNum 1) world0 world0)).
  reflexivity.
Defined.

(** X16. Without a retry policy, whatever [execute] throws leaves the
    node as it was thrown; with a policy of a single attempt, a thrown
    value that is not an Error leaves the node wrapped in an Error whose
    message is [String(value)]. *)
Theorem node_error_wrapped_only_by_retry (n : Node) (policy : RetryPolicy)
    (context copy p v verdict : val) (w w1 w2 w3 w4 : world) :
  deepCopy context w = (w1, Ok copy) ->
  prepareFn n copy w1 = (w2, Ok p) ->
  executeFn n p w2 = (w3, Throw (Thrown v)) ->
  (retryPolicy n = None -> node_execute n context w = (w3, Throw (Thrown v)))
  /\ (retryPolicy n = Some policy ->
      maxAttempts policy = 1 ->
      policy_predicate policy (JsError (js_String (heap w3) v)) w3 = (w4, Ok verdict) ->
      node_execute n context w = (w4, Throw (JsError (js_String (heap w3) v)))).
Proof.
  intros Hcopy Hprep Hexec. split.
  - intros Hnone. unfold node_execute. rewrite try_rethrow, Hnone.
    erewrite bind_ok by exact Hcopy. erewrite bind_ok by exact Hprep.
    by erewrite bind_throw by exact Hexec.
  - intros Hpolicy Hmax Hpred.
    eapply node_execute_retry_error; [exact Hpolicy | exact Hcopy | exact Hprep |].
    rewrite retry_wrapped_rounds, Hmax.
    change (Z.to_nat 1) with 1%nat.
    apply (retry_rounds_propagates _ _ _ O 0 w2 w2 (retried_none _ _ _ 0 w2)
             1%nat 1 w3 (Thrown v) w4 verdict); [lia | lia | exact Hexec | exact Hpred |].
    by right.
Qed.

Lemma node_error_wrapped_only_by_retry_witness :
  node_execute (withExecuteLogic throw_text createNode) (VNum 1) world0
  = (world0, Throw (Thrown (VStr "oops")))
  /\ node_execute (withRetry one_attempt (withExecuteLogic throw_text createNode))
       (VNum 1) world0
     = (world0, Throw (JsError "oops")).
Proof.
  split.
  - refine (proj1 (node_error_wrapped_only_by_retry (withExecuteLogic throw_text createNode)
                     one_attempt (VNum 1) (VNum 1) (VNum 1) (VStr "oops") (VBool true)
                     world0 world0 world0 world0 world0 _ _ _) _); reflexivity.
  - refine (proj2 (node_error_wrapped_only_by_retry
                     (withRetry one_attempt (withExecuteLogic throw_text createNode))
                     one_attempt (VNum 1) (VNum 1) (VNum 1) (VStr "oops") (VBool true)
                     world0 world0 world0 world0 world0 _ _ _) _ _ _); reflexivity.
Defined.

(** ** Pipelines *)

Lemma foldM_app {A B : Type} (f : B -> A -> M B) (l k : list A) acc w :
  foldM f acc (l ++ k) w = (acc' ← foldM f acc l; foldM f acc' k) w.
Proof.
  revert acc w. induction l as [|x l IH]; intros acc w; simpl; [done |].
  mred. destruct (f acc x w) as [w1 [a| |]]; [| done | done]. apply IH.
Qed.

(** X17. A pipeline runs its nodes over one deep copy of the input: the
    empty pipeline returns that copy, and [withNode] adds a last step
    that receives what the pipeline before it returned. The asynchronous
    pipeline does the same. *)
Theorem pipeline_withNode_appends (nodes : list executable) (node : executable)
    (context : val) (w : world) :
  pipeline_execute (createPipeline []) context w = deepCopy context w
  /\ pipeline_execute (pipeline_withNode node nodes) context w
     = (r ← pipeline_execute nodes context; node r) w
  /\ async_pipeline_execute (createPipeline []) context w = deepCopy context w
  /\ async_pipeline_execute (pipeline_withNode node nodes) context w
     = (r ← async_pipeline_execute nodes context; node r) w.
Proof.
  assert (Hempty : forall m : M val, (copy ← m; mret copy) w = m w).
  { intros m. mred. by destruct (m w) as [w1 [a| |]]. }
  split; [apply Hempty |]. split; [| split; [apply Hempty |]].
  - unfold pipeline_execute, pipeline_withNode, createPipeline. mred.
    destruct (deepCopy context w) as [w1 [copy| |]]; [| done | done].
    rewrite foldM_app. mred.
    destruct (foldM (fun ctx (node0 : executable) => node0 ctx) copy nodes w1)
      as [w2 [r| |]]; [| done | done].
    simpl. mred. by destruct (node r w2) as [w3 [a| |]].
  - unfold async_pipeline_execute, pipeline_withNode, createPipeline. mred.
    destruct (deepCopy context w) as [w1 [copy| |]]; [| done | done].
    rewrite foldM_app. mred.
    destruct (foldM (fun ctx (node0 : executable) => safeExecute node0 ctx) copy nodes w1)
      as [w2 [r| |]]; [| done | done].
    cbn [foldM]. mred. unfold safeExecute. rewrite try_rethrow.
    by destruct (node r w2) as [w3 [a| |]].
Qed.

(** X18. A node that throws aborts the pipeline: the error leaves the
    pipeline as it was thrown, in the world that node left, and none of
    the nodes after it runs. *)
Theorem pipeline_stops_at_first_error (before after : list executable) (node : executable)
    (context r : val) (e : exn) (w w1 w2 : world) :
  node r w1 = (w2, Throw e) ->
  (pipeline_execute before context w = (w1, Ok r) ->
     pipeline_execute (before ++ node :: after) context w = (w2, Throw e))
  /\ (async_pipeline_execute before context w = (w1, Ok r) ->
        async_pipeline_execute (before ++ node :: after) context w = (w2, Throw e)).
Proof.
  intros Hnode. split; intros Hbefore.
  - unfold pipeline_execute in *. mred.
    destruct (deepCopy context w) as [w0 [copy| |]]; [| done | done].
    rewrite foldM_app. mred. rewrite Hbefore. simpl. mred. by rewrite Hnode.
  - unfold async_pipeline_execute in *. mred.
    destruct (deepCopy context w) as [w0 [copy| |]]; [| done | done].
    rewrite foldM_app. mred. rewrite Hbefore. cbn [foldM]. mred.
    unfold safeExecute. by rewrite try_rethrow, Hnode.
Qed.

Lemma pipeline_stops_at_first_error_witness :
  pipeline_execute ([pass_through] ++ always_boom :: [stamp_visited]) (VNum 1) world0
  = (world0, Throw (JsError "boom")).
Proof.
  refine (proj1 (pipeline_stops_at_first_error [pass_through] [stamp_visited] always_boom
                   (VNum 1) (VNum 1) (JsError "boom") world0 world0 world0 _) _);
    reflexivity.
Defined.

(** ** Executors *)

Lemma deepCopy_throw_inv v w w' e :
  deepCopy v w = (w', Throw e) -> w' = w /\ exists msg, e = JsError msg.
Proof.
  unfold deepCopy. destruct (stringify (S (length (heap w))) (heap w) v) as [[j|]|].
  - destruct (parse_fresh j w O (Nat.le_0_l _)) as (ext & copy & -> & _). done.
  - intros [= <- <-]. eauto.
  - intros [= <- <-]. eauto.
Qed.

(** X19. [executeWithFallback] returns what the node returns when the
    node returns. When the node throws, the error does not propagate:
    the result is whatever the fallback makes of the error (wrapped in an
    Error when it is not one) and of a new deep copy of the caller's
    context. The asynchronous executor does the same. *)
Theorem executeWithFallback_recovers (node : executable) (context copy : val)
    (fallback : exn -> val -> M val) (w w1 w2 : world) (outcome : res val) :
  deepCopy context w = (w1, Ok copy) ->
  node copy w1 = (w2, outcome) ->
  let recovered :=
    match outcome with
    | Ok r => (w2, Ok r)
    | Throw e => (again ← deepCopy context; fallback (typed_error (heap w2) e) again) w2
    | Hang => (w2, Hang)
    end in
  executeWithFallback node context fallback w = recovered
  /\ async_executeWithFallback node context fallback w = recovered.
Proof.
  intros Hcopy Hnode recovered.
  assert (Hbody : (c ← deepCopy context; node c) w = (w2, outcome)).
  { by erewrite bind_ok by exact Hcopy. }
  assert (Hasync : (c ← deepCopy context; safeExecute node c) w = (w2, outcome)).
  { erewrite bind_ok by exact Hcopy. unfold safeExecute. by rewrite try_rethrow. }
  unfold executeWithFallback, async_executeWithFallback, try_catch.
  rewrite Hbody, Hasync. unfold recovered. by destruct outcome.
Qed.

Lemma executeWithFallback_recovers_witness :
  executeWithFallback always_boom (VNum 1) (fun _ ctx => mret ctx) world0
  = (again ← deepCopy (VNum 1);
     (fun (_ : exn) (ctx : val) => mret ctx) (typed_error (heap world0) (JsError "boom")) again)
      world0.
Proof.
  refine (proj1 (executeWithFallback_recovers always_boom (VNum 1) (VNum 1)
                   (fun _ ctx => mret ctx) world0 world0 world0 (Throw (JsError "boom"))
                   _ _)); reflexivity.
Defined.

(** X20. The fallback cannot rescue a context that cannot be copied:
    when [deepCopy] of the context throws (a cyclic context, or
    [undefined]), the fallback's own copy throws the same error, which
    propagates; neither the node nor the fallback runs. *)
Theorem executeWithFallback_needs_copyable (node : executable) (context : val)
    (fallback : exn -> val -> M val) (w w' : world) (e : exn) :
  deepCopy context w = (w', Throw e) ->
  executeWithFallback node context fallback w = (w, Throw e)
  /\ async_executeWithFallback node context fallback w = (w, Throw e).
Proof.
  intros Hcopy. destruct (deepCopy_throw_inv _ _ _ _ Hcopy) as [-> [msg ->]].
  unfold executeWithFallback, async_executeWithFallback.
  split.
  - erewrite try_throw by (by erewrite bind_throw by exact Hcopy).
    rewrite bind_get_heap. by erewrite bind_throw by exact Hcopy.
  - erewrite try_throw by (by erewrite bind_throw by exact Hcopy).
    rewrite bind_get_heap. by erewrite bind_throw by exact Hcopy.
Qed.

Lemma executeWithFallback_needs_copyable_witness :
  executeWithFallback pass_through (VRef O) (fun _ ctx => mret ctx) self_world
  = (self_world, Throw (JsError "TypeError: cyclic object value")).
Proof.
  refine (proj1 (executeWithFallback_needs_copyable pass_through (VRef O)
                   (fun _ ctx => mret ctx) self_world self_world
                   (JsError "TypeError: cyclic object value") _)).
  reflexivity.
Defined.

(** X21. [execute] lets the node's error through as it was thrown;
    [executeWithLogging] throws it again wrapped in an Error when it is
    not one. On a node that returns a value other than [null] and
    [undefined], for a context that is neither, both return that value. *)
Theorem executeWithLogging_wraps_errors (node : executable) (context copy : val)
    (w w1 w2 : world) (outcome : res val) :
  deepCopy context w = (w1, Ok copy) ->
  node copy w1 = (w2, outcome) ->
  context <> VNull -> context <> VUndef ->
  match outcome with Ok r => r <> VNull /\ r <> VUndef | _ => True end ->
  executor_execute node context w = (w2, outcome)
  /\ executeWithLogging node context w
     = (w2, match outcome with
            | Throw e => Throw (typed_error (heap w2) e)
            | other => other
            end)
  /\ async_executeWithLogging node context w = executeWithLogging node context w.
Proof.
  intros Hcopy Hnode Hnull Hundef Hresult.
  assert (Hguard : forall v, v <> VNull -> v <> VUndef -> Object_keys_guard v = mret tt).
  { by intros [| | | | |]. }
  split; [| split].
  - unfold executor_execute. by erewrite bind_ok by exact Hcopy.
  - unfold executeWithLogging. rewrite (Hguard context Hnull Hundef), bind_ret.
    unfold try_catch. erewrite bind_ok by exact Hcopy.
    mred. rewrite Hnode. destruct outcome as [r|e|]; [| done | done].
    destruct Hresult as [Hr1 Hr2]. by rewrite (Hguard r Hr1 Hr2).
  - unfold async_executeWithLogging, executeWithLogging, try_catch. mred.
    destruct (Object_keys_guard context w) as [wg [[]| |]]; [| done | done].
    destruct (deepCopy context wg) as [wc [c| |]]; [| done | done].
    unfold safeExecute. by rewrite try_rethrow.
Qed.

Lemma executeWithLogging_wraps_errors_witness :
  executor_execute throw_text (VNum 1) world0 = (world0, Throw (Thrown (VStr "oops")))
  /\ executeWithLogging throw_text (VNum 1) world0
     = (world0, Throw (typed_error (heap world0) (Thrown (VStr "oops")))).
Proof.
  destruct (executeWithLogging_wraps_errors throw_text (VNum 1) (VNum 1) world0 world0 world0
              (Throw (Thrown (VStr "oops")))) as (Hexec & Hlog & _);
    [reflexivity | reflexivity | discriminate | discriminate | exact I |].
  exact (conj Hexec Hlog).
Defined.

(** X22. On the context [null], [execute] runs the node on [null];
    [executeWithLogging] throws a TypeError before the node runs and
    before anything is copied, since it lists the context's keys first. *)
Theorem executeWithLogging_rejects_null (node : executable) (w : world) :
  executor_execute node VNull w = node VNull w
  /\ (executeWithLogging node VNull w).1 = w
  /\ (exists msg, (executeWithLogging node VNull w).2 = Throw (JsError msg))
  /\ async_executeWithLogging node VNull w = executeWithLogging node VNull w.
Proof. repeat split. eexists. reflexivity. Qed.

(** X23. [executeWithProgress] reports (0, 1), runs the node on a deep
    copy, and reports (1, 1) only when the node has returned: when the
    node throws, its error propagates and the second report is not made.
    The synchronous executor, written with [pipe], and the asynchronous
    one behave alike. *)
Theorem executeWithProgress_reports (node : executable) (context copy : val)
    (progressCb : Z -> Z -> M unit) (w w0 w1 w2 : world) (outcome : res val) :
  progressCb 0 1 w = (w0, Ok tt) ->
  deepCopy context w0 = (w1, Ok copy) ->
  node copy w1 = (w2, outcome) ->
  let reported :=
    match outcome with
    | Ok r => (progressCb 1 1;; mret r) w2
    | failed => (w2, failed)
    end in
  executeWithProgress node context progressCb w = reported
  /\ async_executeWithProgress node context progressCb w = reported.
Proof.
  intros Hstart Hcopy Hnode reported. split.
  - unfold executeWithProgress, pipe. cbn [foldM].
    erewrite bind_ok by (erewrite bind_ok by exact Hstart; exact Hcopy).
    mred. rewrite Hnode. unfold reported. mred. destruct outcome as [r| |]; [| done | done].
    by destruct (progressCb 1 1 w2) as [w3 [[]| |]].
  - unfold async_executeWithProgress.
    erewrite bind_ok by exact Hstart. erewrite bind_ok by exact Hcopy.
    unfold safeExecute. mred. rewrite try_rethrow, Hnode. unfold reported. mred.
    by destruct outcome.
Qed.

Lemma executeWithProgress_reports_witness :
  executeWithProgress always_boom (VNum 1) (fun _ total => sleep total) world0
  = (with_event (EvSleep 1) world0, Throw (JsError "boom")).
Proof.
  refine (proj1 (executeWithProgress_reports always_boom (VNum 1) (VNum 1)
                   (fun _ total => sleep total) world0 (with_event (EvSleep 1) world0)
                   (with_event (EvSleep 1) world0) (with_event (EvSleep 1) world0)
                   (Throw (JsError "boom")) _ _ _)); reflexivity.
Defined.

(** ** Gates and joins *)

(** X24. A gate made by [createWhen(condition, target)] looks at the
    context's own [outcome]: on a record whose outcome is the condition
    string it hands the context to the target; on any other record it
    returns the context itself and changes nothing; on a context that is
    not an object its [in] test throws a TypeError. The asynchronous gate
    does the same. *)
Theorem when_default_gate (condition : string) (targetNode : executable) (cs : closures)
    (l : loc) (fs : gmap string val) (v : val) (w : world) :
  heap w !! l = Some (plain fs) ->
  primitive v ->
  let gate := createWhen condition targetNode cs in
  (fs !! "outcome" = Some (VStr condition) ->
     when_execute gate.1 gate.2 (VRef l) w = targetNode (VRef l) w
     /\ async_when_execute gate.1 gate.2 (VRef l) w = targetNode (VRef l) w)
  /\ (fs !! "outcome" <> Some (VStr condition) ->
        when_execute gate.1 gate.2 (VRef l) w = (w, Ok (VRef l))
        /\ async_when_execute gate.1 gate.2 (VRef l) w = (w, Ok (VRef l)))
  /\ when_execute gate.1 gate.2 v w
     = (w, Throw (JsError "TypeError: right operand of 'in' is not an object"))
  /\ async_when_execute gate.1 gate.2 v w
     = (w, Throw (JsError "TypeError: right operand of 'in' is not an object")).
Proof.
  intros Hl Hv gate.
  assert (Hcond : default_conditionFn condition (VRef l) w
                  = (w, Ok (VBool (bool_decide (default VUndef (fs !! "outcome")
                                                = VStr condition))))).
  { unfold default_conditionFn, getFromContext, get_heap, strict_eq. mred. simpl.
    rewrite Hl. simpl. by destruct (fs !! "outcome"). }
  unfold gate, when_execute, async_when_execute, createWhen. cbn [fst snd cond_vars].
  rewrite lookup_snoc. split; [| split; [| split]].
  - intros Hout. erewrite !bind_ok by exact Hcond. rewrite Hout. simpl.
    rewrite bool_decide_eq_true_2 by done. simpl.
    split; [done |]. unfold safeExecute. by rewrite try_rethrow.
  - intros Hout. erewrite !bind_ok by exact Hcond.
    rewrite bool_decide_eq_false_2; [done |].
    intros Heq. apply Hout. destruct (fs !! "outcome"); simpl in Heq; by subst.
  - by destruct v.
  - by destruct v.
Qed.

Lemma when_default_gate_witness :
  when_execute (createWhen "go" stamp_visited no_closures).1
    (createWhen "go" stamp_visited no_closures).2 (VRef O) self_world
  = (self_world, Ok (VRef O)).
Proof.
  refine (proj1 (proj1 (proj2 (when_default_gate "go" stamp_visited no_closures O
                                 {[ "self" := VRef O ]} (VNum 1) self_world _ _)) _)).
  - reflexivity.
  - exact I.
  - discriminate.
Defined.

(** X25. [withJoinFn] called on a join that [withJoinFn] returned makes a
    join with a function variable of its own: the join it was called on
    keeps its function. [withJoinFn] called again on the join that
    [create] returned changes the function of the join returned by the
    earlier call too, since both read the one variable. A gate returned
    by [withCondition] holds its predicate itself and is not affected by
    a later [withCondition] on the original gate. *)
Theorem derived_builders (cs : closures) (f g : list val -> M val) (p q : val -> M val)
    (condition : string) (targetNode : executable) (contexts : list val) (context : val) :
  let root := createJoin cs in
  let first := withJoinFn f root.2 root.1 in
  let derived := withJoinFn g first.2 first.1 in
  let again := withJoinFn g root.2 first.1 in
  let gate := createWhen condition targetNode cs in
  let gate1 := withCondition p gate.2 gate.1 in
  let gate2 := withCondition q gate.2 gate1.1 in
  join_execute derived.1 derived.2 contexts = g contexts
  /\ join_execute derived.1 first.2 contexts = f contexts
  /\ join_execute again.1 first.2 contexts = g contexts
  /\ when_execute gate2.1 gate1.2 context
     = (matches ← p context; if truthy matches then targetNode context else mret context).
Proof.
  simpl. unfold join_execute, withJoinFn, withJoinFn_from, assign_joinFn, createJoin, new_join.
  cbn [fst snd join_vars join_var join_is_root cond_vars].
  set (vars := join_vars cs).
  assert (Hlen : length (<[length vars := f]> (vars ++ [default_joinFn])) = S (length vars)).
  { rewrite length_insert, length_app. simpl. lia. }
  split; [| split; [| split]].
  - rewrite Hlen.
    replace (S (length vars)) with (length (<[length vars := f]> (vars ++ [default_joinFn])))
      by exact Hlen.
    by rewrite lookup_snoc_insert.
  - rewrite Hlen. rewrite list_lookup_insert_ne by lia.
    rewrite lookup_app_l by (rewrite Hlen; lia).
    by rewrite lookup_snoc_insert.
  - rewrite list_insert_insert_eq. by rewrite lookup_snoc_insert.
  - reflexivity.
Qed.

(** X26. The default AsyncJoin over contexts that exist returns a new
    record and changes none of its inputs: the new record holds, for
    every key, the value of the last context that has the key, and the
    outcome "joined" whatever the contexts say; over no context at all
    it holds the outcome alone. *)
Theorem async_join_merges (contexts : list val) (w : world) :
  Forall (valid (heap w)) contexts ->
  exists w' l,
    default_async_joinFn contexts w = (w', Ok (VRef l))
    /\ (length (heap w) <= l)%nat
    /\ (forall a, (a < length (heap w))%nat -> heap w' !! a = heap w !! a)
    /\ spread (heap w') (VRef l)
       = <["outcome" := VStr "joined"]> (merged_fields (heap w) contexts)
    /\ (forall earlier ctx later key v,
          contexts = earlier ++ ctx :: later ->
          key <> "outcome" ->
          spread (heap w) ctx !! key = Some v ->
          Forall (fun c => spread (heap w) c !! key = None) later ->
          get_prop (heap w') (VRef l) key = v).
Proof.
  intros Hvalid. unfold default_async_joinFn.
  erewrite bind_ok by apply alloc_eq.
  destruct (merge_fold_fields (heap w) contexts Hvalid (VRef (length (heap w)))
              (with_heap (heap w ++ [plain ∅]) w) [plain ∅] eq_refl)
    as (w1 & merged & ext & Hfold & Hheap & Hfields).
  erewrite bind_ok by exact Hfold.
  rewrite bind_get_heap. erewrite bind_ok by apply alloc_eq.
  erewrite bind_ok by (apply set_prop_fresh; reflexivity).
  eexists _, _. split; [reflexivity |].
  cbn [heap with_heap]. rewrite Hheap.
  assert (Hspread : spread ((heap w ++ ext)
                            ++ [plain (<["outcome" := VStr DEFAULT_JOIN_OUTCOME]>
                                         (spread (heap w ++ ext) merged))])
                           (VRef (length (heap w ++ ext)))
                    = <["outcome" := VStr "joined"]> (merged_fields (heap w) contexts)).
  { rewrite spread_fresh. rewrite <- Hheap, Hfields. cbn [heap with_heap].
    by rewrite spread_fresh. }
  split; [rewrite length_app; lia |]. split; [| split].
  - intros a Ha. rewrite <- app_assoc. by rewrite lookup_app_l.
  - exact Hspread.
  - intros earlier ctx later key v -> Hkey Hctx Hlater.
    pose proof (merged_fields_later_wins (heap w) earlier ctx later key v Hctx Hlater) as Hwin.
    simpl. rewrite lookup_snoc. simpl. rewrite <- Hheap, Hfields. cbn [heap with_heap].
    rewrite spread_fresh. rewrite lookup_insert_ne by done.
    unfold merged_fields in Hwin. by rewrite Hwin.
Qed.

Lemma async_join_merges_witness :
  exists w' l,
    default_async_joinFn [VRef O] self_world = (w', Ok (VRef l))
    /\ (1 <= l)%nat
    /\ get_prop (heap w') (VRef l) "self" = VRef O.
Proof.
  destruct (async_join_merges [VRef O] self_world) as (w' & l & Hrun & Hl & _ & _ & Hlast).
  - repeat constructor.
  - exists w', l. split; [exact Hrun |]. split; [exact Hl |].
    apply (Hlast [] (VRef O) [] "self"); [reflexivity | discriminate | reflexivity | constructor].
Defined.
